(** * Translation-rules dashboard: the loader, the two filters and the
      rule grouping of [dashboard.py], embedded in Rocq.

    The program reads a CSV table with pandas, splits its columns at the
    pivot column ['WY event'] into input and output columns, normalises the
    cells, filters the rows in two stages and displays one merged rule per
    distinct tuple of output values.

    Conventions of the embedding.
    - A Python [str] is a Rocq [string] holding its UTF-8 bytes.  Python
      orders strings by code point, which is the byte order of their UTF-8
      encodings, so [String.compare] is Python's [<] on [str].
    - A pandas DataFrame is a header (the column labels, in order) and a
      list of rows; a row carries its index label and its cells in header
      order.  Filtering keeps index labels, as pandas does.
    - Streamlit calls are recorded, in program order, as a list of [ui]
      events; [st.stop()] is the event [Stop], after which nothing is
      emitted.  The value a widget returns is an argument of [main].
    - [pd.read_csv] is outside the program: its result (a frame whose cells
      are [str], [int], [float] or [bool] objects, or an exception) is the
      input of [load_data]. *)

From Stdlib Require Import String Ascii List ZArith DecimalString Bool Arith Lia.
From Stdlib Require Import Sorting.Sorted Sorting.Permutation.
Import ListNotations.
Open Scope string_scope.

Set Implicit Arguments.

(* ================================================================== *)
(** * Python strings *)
(* ================================================================== *)

Module PyStr.

(** [s.replace('~', 'NOT')]: every occurrence of the one-character
    pattern is rewritten, left to right. *)
Fixpoint replace_tilde (s : string) : string :=
  match s with
  | EmptyString => EmptyString
  | String c s' =>
      if Ascii.eqb c "~"%char then "NOT" ++ replace_tilde s'
      else String c (replace_tilde s')
  end.

(** ** [str.strip()]

    Python strips the characters for which [str.isspace] holds.  In the
    ASCII range these are U+0009..U+000D, U+001C..U+001F and U+0020; the
    others are listed with their UTF-8 encodings. *)
Definition ascii_space (c : ascii) : bool :=
  let n := nat_of_ascii c in
  ((9 <=? n)%nat && (n <=? 13)%nat) || ((28 <=? n)%nat && (n <=? 32)%nat).

Definition unicode_spaces : list (list nat) :=
  [ [194; 133];                      (* U+0085 *)
    [194; 160];                      (* U+00A0 *)
    [225; 154; 128];                 (* U+1680 *)
    [226; 128; 128]; [226; 128; 129]; [226; 128; 130]; [226; 128; 131];
    [226; 128; 132]; [226; 128; 133]; [226; 128; 134]; [226; 128; 135];
    [226; 128; 136]; [226; 128; 137]; [226; 128; 138];  (* U+2000..U+200A *)
    [226; 128; 168]; [226; 128; 169];                   (* U+2028, U+2029 *)
    [226; 128; 175];                 (* U+202F *)
    [226; 129; 159];                 (* U+205F *)
    [227; 128; 128] ].               (* U+3000 *)

Definition wide_spaces : list (list ascii) :=
  map (map ascii_of_nat) unicode_spaces.

Fixpoint drop_prefix (p l : list ascii) : option (list ascii) :=
  match p, l with
  | [], _ => Some l
  | _ :: _, [] => None
  | a :: p', b :: l' => if Ascii.eqb a b then drop_prefix p' l' else None
  end.

Fixpoint drop_any (pats : list (list ascii)) (l : list ascii)
  : option (list ascii) :=
  match pats with
  | [] => None
  | p :: pats' =>
      match drop_prefix p l with
      | Some l' => Some l'
      | None => drop_any pats' l
      end
  end.

(** One whitespace character removed from the front, if there is one. *)
Definition drop_space (pats : list (list ascii)) (l : list ascii)
  : option (list ascii) :=
  match l with
  | [] => None
  | c :: l' => if ascii_space c then Some l' else drop_any pats l
  end.

Fixpoint lstrip_fuel (fuel : nat) (pats : list (list ascii)) (l : list ascii)
  : list ascii :=
  match fuel with
  | O => l
  | S fuel' =>
      match drop_space pats l with
      | Some l' => lstrip_fuel fuel' pats l'
      | None => l
      end
  end.

Definition lstrip_list (pats : list (list ascii)) (l : list ascii) :=
  lstrip_fuel (List.length l) pats l.

Definition strip (s : string) : string :=
  let front := lstrip_list wide_spaces (list_ascii_of_string s) in
  let back := lstrip_list (map (@rev ascii) wide_spaces) (rev front) in
  string_of_list_ascii (rev back).

(** [sep.join(l)] *)
Fixpoint join (sep : string) (l : list string) : string :=
  match l with
  | [] => ""
  | [x] => x
  | x :: l' => x ++ sep ++ join sep l'
  end.

(** [str(n)] for a Python [int], and for a length or a counter. *)
Definition str_of_Z (z : Z) : string := NilZero.string_of_int (Z.to_int z).
Definition str_of_nat (n : nat) : string := NilZero.string_of_uint (Nat.to_uint n).

(** [x in l] for a list (or array) of strings. *)
Definition mem (x : string) (l : list string) : bool :=
  existsb (String.eqb x) l.

End PyStr.
Import PyStr.

(* ================================================================== *)
(** * [sorted] and [unique] *)
(* ================================================================== *)

Section Sorting.
Variable A : Type.
Variable leb : A -> A -> bool.

Fixpoint insert_sorted (x : A) (l : list A) : list A :=
  match l with
  | [] => [x]
  | y :: l' => if leb x y then x :: l else y :: insert_sorted x l'
  end.

(** The result of Python's [sorted] (and of pandas' ordering of group
    keys) for the order [leb]: the ascending rearrangement, equal
    elements keeping their relative order. *)
Definition sort_by (l : list A) : list A :=
  fold_right insert_sorted [] l.
End Sorting.

Section Unique.
Variable A : Type.
Variable eq_dec : forall x y : A, {x = y} + {x <> y}.

Definition differs (x y : A) : bool := if eq_dec y x then false else true.

(** [Series.unique()]: the distinct values in order of first
    appearance. *)
Fixpoint unique (l : list A) : list A :=
  match l with
  | [] => []
  | x :: l' => x :: filter (differs x) (unique l')
  end.
End Unique.

Section Lexicographic.
Variable A : Type.
Variable cmp : A -> A -> comparison.

(** Python's comparison of two sequences: the first position where
    they differ decides, and a proper prefix comes first. *)
Fixpoint lex_compare (l1 l2 : list A) : comparison :=
  match l1, l2 with
  | [], [] => Eq
  | [], _ :: _ => Lt
  | _ :: _, [] => Gt
  | a :: l1', b :: l2' =>
      match cmp a b with
      | Eq => lex_compare l1' l2'
      | c => c
      end
  end.

(** [x <= y] read off a three-way comparison. *)
Definition leb_of (x y : A) : bool :=
  match cmp x y with Gt => false | _ => true end.

(** What makes a three-way comparison a total order. *)
Record Ordering : Prop :=
  { cmp_eq : forall a b, cmp a b = Eq -> a = b;
    cmp_refl : forall a, cmp a a = Eq;
    cmp_antisym : forall a b, cmp a b = CompOpp (cmp b a);
    cmp_trans : forall a b c, cmp a b = Lt -> cmp b c = Lt -> cmp a c = Lt }.
End Lexicographic.

(** [sorted(l)] on strings. *)
Definition sorted (l : list string) : list string := sort_by String.leb l.

Definition unique_str : list string -> list string := unique string_dec.

(* ================================================================== *)
(** * Cells and frames *)
(* ================================================================== *)

(** What a cell holds after [pd.read_csv(..., keep_default_na=False)]:
    type inference gives a column of [int64], [float64], [bool] or
    [object] ([str]) values; no cell is null.  The program never computes
    with a float, it only converts it to text, so a float cell is carried
    as the text [str] gives for it. *)
Inductive cell : Type :=
| CStr (s : string)
| CInt (z : Z)
| CFloat (repr : string)
| CBool (b : bool).

(** [str(v)] *)
Definition str (v : cell) : string :=
  match v with
  | CStr s => s
  | CInt z => str_of_Z z
  | CFloat r => r
  | CBool true => "True"
  | CBool false => "False"
  end.

Record Row (A : Type) : Type := mkRow { label : nat; cells : list A }.

Record DataFrame (A : Type) : Type :=
  mkDF { columns : list string; rows : list (Row A) }.

Arguments mkDF {A} _ _.
Arguments mkRow {A} _ _.

(** [pd.DataFrame()] *)
Definition empty_frame {A} : DataFrame A := mkDF [] [].

(** [df.empty]: some axis has length zero. *)
Definition empty {A} (df : DataFrame A) : bool :=
  match rows df, columns df with
  | [], _ => true
  | _, [] => true
  | _, _ => false
  end.

(** The cells of a row under the label [c], left to right (exactly one
    when the header has [c] once). *)
Fixpoint select {A} (cols : list string) (vals : list A) (c : string) : list A :=
  match cols, vals with
  | k :: cols', v :: vals' =>
      if String.eqb k c then v :: select cols' vals' c else select cols' vals' c
  | _, _ => []
  end.

(** [row[cols].values] *)
Definition row_values {A} (header : list string) (r : Row A)
    (cols : list string) : list A :=
  flat_map (select header (cells r)) cols.

(** The cells of a row with [f] applied under the label [c]. *)
Fixpoint update {A} (cols : list string) (c : string) (f : A -> A)
    (vals : list A) : list A :=
  match cols, vals with
  | k :: cols', v :: vals' =>
      (if String.eqb k c then f v else v) :: update cols' c f vals'
  | _, _ => vals
  end.

(** [df[c] = f(df[c])], element-wise. *)
Definition assign {A} (c : string) (f : A -> A) (df : DataFrame A) : DataFrame A :=
  mkDF (columns df)
       (map (fun r => mkRow (label r) (update (columns df) c f (cells r))) (rows df)).

(** The cells of a row whose label is not in [drop]. *)
Fixpoint keep {A} (cols : list string) (drop : list string) (vals : list A) : list A :=
  match cols, vals with
  | k :: cols', v :: vals' =>
      if mem k drop then keep cols' drop vals' else v :: keep cols' drop vals'
  | _, _ => []
  end.

(** [df.drop(columns=drop, errors='ignore')] *)
Definition drop_columns {A} (drop : list string) (df : DataFrame A) : DataFrame A :=
  mkDF (filter (fun k => negb (mem k drop)) (columns df))
       (map (fun r => mkRow (label r) (keep (columns df) drop (cells r))) (rows df)).

(** [df.columns.get_loc(c)] on a header without repeated labels ([read_csv]
    renames repeated labels apart): the position of [c], [None] for
    [KeyError]. *)
Fixpoint get_loc (cols : list string) (c : string) : option nat :=
  match cols with
  | [] => None
  | k :: cols' =>
      if String.eqb k c then Some 0
      else match get_loc cols' c with
           | Some i => Some (S i)
           | None => None
           end
  end.

(** How often the label [c] occurs in a header. *)
Definition occurrences (cols : list string) (c : string) : nat :=
  count_occ string_dec cols c.

(* ================================================================== *)
(** * The page *)
(* ================================================================== *)

(** The Streamlit elements the program emits. *)
Inductive element : Type :=
| Title (body : string)
| Header (body : string)
| Subheader (body : string)
| Markdown (body : string)
| Error (body : string)
| Warning (body : string)
| Info (body icon : string)
| Success (body icon : string)
| Selectbox (caption : string) (options : list string)
| Multiselect (caption : string) (options : list string)
| Stop
| Uncaught (exn : string).

(** Where an element goes: the page, the sidebar, or one of the two
    columns of a rule ([with cols[i]:]). *)
Inductive place : Type := Page | Sidebar | Column (i : nat).

Definition ui : Type := (place * element)%type.

(* ================================================================== *)
(** * [load_data] *)
(* ================================================================== *)

(** The outcome of [pd.read_csv]: an exception with its message, or a
    frame. *)
Inductive csv_result : Type :=
| ReadError (msg : string)
| ReadOk (df : DataFrame cell).

(** What [load_data] returns: [df, input_cols, output_cols]. *)
Definition Loaded : Type := (DataFrame string * list string * list string)%type.

(** [return pd.DataFrame(), [], []] *)
Definition load_failed : Loaded := (empty_frame, [], []).

Definition cols_to_drop : list string := ["SB attributes"; "WY attributes"].

(** [.astype(str)] *)
Definition astype_str (v : cell) : cell := CStr (str v).

(** [.astype(str).str.replace('~', 'NOT', regex=False)] *)
Definition negation_to_NOT (v : cell) : cell := CStr (replace_tilde (str v)).

(** The loop over [input_cols] (lines 43-46).  When a label occurs twice
    in the trimmed header, [df[col]] is a frame, which has no [.str]:
    the [AttributeError] ([None]) reaches the outer handler. *)
Definition normalize_inputs (input_cols : list string) (df : DataFrame cell)
  : option (DataFrame cell) :=
  fold_left
    (fun acc col =>
       match acc with
       | None => None
       | Some d =>
           if mem col (columns d) then
             if Nat.eqb (occurrences (columns d) col) 1
             then Some (assign col negation_to_NOT d)
             else None
           else Some d
       end)
    input_cols (Some df).

(** The loop over [output_cols] (lines 49-51). *)
Definition normalize_outputs (output_cols : list string) (df : DataFrame cell)
  : DataFrame cell :=
  fold_left
    (fun d col => if mem col (columns d) then assign col astype_str d else d)
    output_cols df.

(** Lines 42-51, the normalization step. *)
Definition normalize (input_cols output_cols : list string) (df : DataFrame cell)
  : option (DataFrame cell) :=
  match normalize_inputs input_cols df with
  | Some d => Some (normalize_outputs output_cols d)
  | None => None
  end.

(** After normalization every cell of the frame is a [str] (lemma
    [normalize_all_str] below); the rest of the program is written on
    frames of strings, read off the normalized frame here. *)
Definition texts (df : DataFrame cell) : DataFrame string :=
  mkDF (columns df) (map (fun r => mkRow (label r) (map str (cells r))) (rows df)).

Definition pivot_missing : string :=
  "CRITICAL ERROR: The required column 'WY event' was not found in the CSV file.".

Definition loading_error (e : string) : string :=
  "CRITICAL ERROR while loading data: " ++ e.

(** [load_data]: the messages it emits and the triple it returns.  (The
    [st.cache_data] decorator only avoids recomputation.) *)
Definition load_data (csv : csv_result) : list ui * Loaded :=
  match csv with
  | ReadError e => ([(Page, Error (loading_error e))], load_failed)
  | ReadOk df =>
      let df := drop_columns cols_to_drop df in
      match get_loc (columns df) "WY event" with
      | None => ([(Page, Error pivot_missing)], load_failed)
      | Some wy_event_index =>
          let input_cols := firstn wy_event_index (columns df) in
          let output_cols := skipn wy_event_index (columns df) in
          let df := mkDF (map strip (columns df)) (rows df) in
          let input_cols := map strip input_cols in
          let output_cols := map strip output_cols in
          match normalize input_cols output_cols df with
          | Some df => ([], (texts df, input_cols, output_cols))
          | None =>
              ([(Page, Error (loading_error
                                "'DataFrame' object has no attribute 'str'"))],
               load_failed)
          end
      end
  end.

(* ================================================================== *)
(** * [display_merged_rules] *)
(* ================================================================== *)

(** A group key: the tuple of output values, compared as Python compares
    tuples of strings. *)
Definition key : Type := list string.

Definition key_dec : forall k1 k2 : key, {k1 = k2} + {k1 <> k2} :=
  list_eq_dec string_dec.

Definition key_eqb (k1 k2 : key) : bool := if key_dec k1 k2 then true else false.

Definition key_compare : key -> key -> comparison := lex_compare String.compare.

Definition key_leb : key -> key -> bool := leb_of key_compare.

(** One item of the iteration over [grouped]. *)
Record Group : Type :=
  mkGroup { output_values : key; group : DataFrame string }.

(** The key of a row: its values under the grouping labels, in order. *)
Definition row_key (df : DataFrame string) (by_ : list string) (r : Row string) : key :=
  row_values (columns df) r by_.

(** The distinct keys of a frame in ascending order, and the rows that
    carry a given key, in frame order. *)
Definition group_keys (df : DataFrame string) (by_ : list string) : list key :=
  sort_by key_leb (unique key_dec (map (row_key df by_) (rows df))).

Definition members (df : DataFrame string) (by_ : list string) (k : key)
  : DataFrame string :=
  mkDF (columns df) (filter (fun r => key_eqb (row_key df by_ r) k) (rows df)).

(** [df.groupby(by=by_, dropna=False)] and its iteration: one group per
    distinct key, keys ascending ([sort=True] is the default), each group
    the rows with that key in frame order.  pandas raises [ValueError]
    ([None]) when no label is given or when a label names more than one
    column, and [KeyError] when a label names none. *)
Definition groupby (df : DataFrame string) (by_ : list string) : option (list Group) :=
  match by_ with
  | [] => None
  | _ :: _ =>
      if forallb (fun c => Nat.eqb (occurrences (columns df) c) 1) by_
      then Some (map (fun k => mkGroup k (members df by_ k)) (group_keys df by_))
      else None
  end.

(** The number of rows folded into a group. *)
Definition member_count (g : Group) : nat := List.length (rows (group g)).

(** Every row has one cell per column, as in any pandas frame. *)
Definition rectangular {A} (df : DataFrame A) : bool :=
  forallb (fun r => Nat.eqb (List.length (cells r)) (List.length (columns df)))
          (rows df).

(** [df[col]] as a list of values. *)
Definition column_values (df : DataFrame string) (col : string) : list string :=
  flat_map (fun r => select (columns df) (cells r) col) (rows df).

(** Line 87; [pd.notna] holds of every string. *)
Definition shown (v : string) : bool :=
  negb (String.eqb (strip v) "") && negb (String.eqb (strip v) "NOT").

(** Lines 86-87, for a label that names one column of the group: the
    loop [input_lines] below raises for any other label before it gets
    here. *)
Definition cleaned_vals (g : DataFrame string) (col : string) : list string :=
  filter shown (unique_str (column_values g col)).

(** The input side of a merged rule: for each input column with a value
    to show, the sorted values (lines 84-93), when every label names one
    column of the group (see [input_lines] for the loop itself). *)
Definition input_display (g : DataFrame string) (input_cols : list string)
  : list (string * list string) :=
  flat_map
    (fun col =>
       match cleaned_vals g col with
       | [] => []
       | vals => [(col, sorted vals)]
       end)
    input_cols.

(** A Python [dict] of strings, kept as its items in insertion order;
    [dict_set] is [d[k] = v]: a key already there keeps its place and
    takes the new value. *)
Fixpoint dict_set (k v : string) (d : list (string * string))
  : list (string * string) :=
  match d with
  | [] => [(k, v)]
  | (k', v') :: d' =>
      if String.eqb k' k then (k', v) :: d' else (k', v') :: dict_set k v d'
  end.

(** [dict(pairs)] *)
Definition dict (pairs : list (string * string)) : list (string * string) :=
  fold_left (fun d kv => dict_set (fst kv) (snd kv) d) pairs [].

(** Line 103: [dict(zip(output_cols, output_values))]. *)
Definition common_outputs (output_cols : list string) (output_values : key)
  : list (string * string) :=
  dict (combine output_cols output_values).

(** The output side: the items of [common_outputs] whose value is not
    blank (lines 105-108). *)
Definition output_display (output_cols : list string) (output_values : key)
  : list (string * string) :=
  filter (fun cv => negb (String.eqb (strip (snd cv)) ""))
         (common_outputs output_cols output_values).

Definition no_rules : string := "No rules found for the selected criteria.".

(** What [group[col].unique()] raises: [KeyError] when no column of the
    group has the label, [AttributeError] when several have (then
    [group[col]] is a frame, which has no [unique]). *)
Definition label_error (cols : list string) (col : string) : option string :=
  match occurrences cols col with
  | 0 => Some "KeyError"
  | 1 => None
  | _ => Some "AttributeError"
  end.

(** Lines 93 and 107. *)
Definition input_line (cv : string * list string) : ui :=
  (Column 0, Markdown ("**" ++ fst cv ++ ":** `" ++ join " / " (snd cv) ++ "`")).

Definition output_line (cv : string * string) : ui :=
  (Column 1, Markdown ("**" ++ fst cv ++ ":** `" ++ snd cv ++ "`")).

(** The loop over [input_cols] (lines 84-93): the lines it shows and the
    exception that ends it, if a label raises. *)
Fixpoint input_lines (g : DataFrame string) (input_cols : list string)
  : list ui * option string :=
  match input_cols with
  | [] => ([], None)
  | col :: rest =>
      match label_error (columns g) col with
      | Some exn => ([], Some exn)
      | None =>
          let shown_here :=
            match cleaned_vals g col with
            | [] => []
            | vals => [input_line (col, sorted vals)]
            end in
          let '(lines, raised) := input_lines g rest in
          ((shown_here ++ lines)%list, raised)
      end
  end.

(** The right column of a rule (lines 96-111). *)
Definition output_lines (output_cols : list string) (output_values : key)
  : list ui :=
  (Column 1, Success "**WY Output (Destination)**" "📤")
  :: match output_display output_cols output_values with
     | [] => [ (Column 1, Markdown "_No specific output attributes for this rule._") ]
     | shown_outputs => map output_line shown_outputs
     end.

(** The body of the loop over [grouped], for the rule numbered [n]: what
    it shows, and the exception raised on the input side, if any, in
    which case the output side is not reached. *)
Definition display_rule (input_cols output_cols : list string)
    (n : nat) (g : Group) : list ui * option string :=
  let '(lines, raised) := input_lines (group g) input_cols in
  let top :=
    ([ (Page, Markdown "---");
       (Page, Markdown ("#### Rule #" ++ str_of_nat n));
       (Column 0, Info "**SB Input Conditions (Source)**" "📥") ]
     ++ lines)%list in
  match raised with
  | Some exn => (top, Some exn)
  | None => ((top ++ output_lines output_cols (output_values g))%list, None)
  end.

(** The loop over [grouped] (lines 72-111); an exception ends it. *)
Fixpoint display_rules (input_cols output_cols : list string)
    (numbered : list (nat * Group)) : list ui :=
  match numbered with
  | [] => []
  | (n, g) :: rest =>
      let '(shown_here, raised) := display_rule input_cols output_cols n g in
      match raised with
      | Some exn => shown_here ++ [ (Page, Uncaught exn) ]
      | None => shown_here ++ display_rules input_cols output_cols rest
      end
  end.

(** What [groupby] raises when it fails: the labels are looked up in
    order, a label no column has gives [KeyError], a label several
    columns have gives [ValueError], as does an empty list of labels. *)
Fixpoint grouper_error (cols by_ : list string) : string :=
  match by_ with
  | [] => "ValueError"
  | c :: rest =>
      match occurrences cols c with
      | 0 => "KeyError"
      | 1 => grouper_error cols rest
      | _ => "ValueError"
      end
  end.

Definition display_merged_rules (df : DataFrame string)
    (input_cols output_cols : list string) : list ui :=
  if empty df then [ (Page, Warning no_rules) ]
  else
    match groupby df output_cols with
    | None => [ (Page, Uncaught (grouper_error (columns df) output_cols)) ]
    | Some grouped =>
        (Page, Subheader ("Found " ++ str_of_nat (List.length grouped)
                            ++ " Unique Output Rule(s)"))
        :: display_rules input_cols output_cols
             (combine (seq 1 (List.length grouped)) grouped)
    end.

(* ================================================================== *)
(** * [main] *)
(* ================================================================== *)

Definition file_path : string := "translation_rules.csv".

Definition cannot_proceed : string :=
  "Data could not be loaded or the file is empty. The application cannot proceed.".

(** Lines 148-153 *)
Definition primary_filter (df : DataFrame string) (selected_event : string)
  : DataFrame string :=
  if String.eqb selected_event "All" then df
  else mkDF (columns df)
         (filter (fun r => mem selected_event (select (columns df) (cells r) "WY event"))
                 (rows df)).

(** Lines 157-160 *)
Definition cleaned_attributes (filtered_df : DataFrame string)
    (output_cols : list string) (selected_event : string) : list string :=
  let all_output_values :=
    flat_map (fun r => row_values (columns filtered_df) r output_cols)
             (rows filtered_df) in
  let unique_attributes := unique_str all_output_values in
  filter (fun attr => negb (String.eqb (strip attr) "")
                      && negb (String.eqb attr selected_event))
         unique_attributes.

(** Line 173, the mask of one row. *)
Definition has_all (filtered_df : DataFrame string) (output_cols : list string)
    (selected_attributes : list string) (r : Row string) : bool :=
  forallb (fun attr => mem attr (row_values (columns filtered_df) r output_cols))
          selected_attributes.

(** Lines 169-179.  On a frame without rows [apply(axis=1)] calls the
    function on no row and gives an empty Series of floats, not a mask of
    booleans, so that [filtered_df[mask]] selects columns, and none. *)
Definition secondary_filter (filtered_df : DataFrame string)
    (output_cols selected_attributes : list string) : DataFrame string :=
  match selected_attributes with
  | [] => filtered_df
  | _ :: _ =>
      match rows filtered_df with
      | [] => mkDF [] []
      | _ :: _ =>
          mkDF (columns filtered_df)
               (filter (has_all filtered_df output_cols selected_attributes)
                       (rows filtered_df))
      end
  end.

(** The chrome [main] draws before anything else. *)
Definition chrome : list ui :=
  [ (Sidebar, Header "Filter Rules");
    (Page, Title "📊 TagOnce Translation Rules");
    (Page, Markdown "---") ].

(** [main], given whether the data file exists, what [read_csv] gives
    for it, and what the two widgets return. *)
Definition main (file_exists : bool) (csv : csv_result)
    (selected_event : string) (selected_attributes : list string) : list ui :=
  chrome ++
  if negb file_exists then
    [ (Page, Error ("FATAL ERROR: The data file '" ++ file_path ++ "' was not found."));
      (Page, Info "Please make sure the file is in the same folder as this script and has the correct name." "");
      (Page, Stop) ]
  else
    let '(messages, (df, input_cols, output_cols)) := load_data csv in
    messages ++
    if empty df then [ (Page, Warning cannot_proceed); (Page, Stop) ]
    else if negb (Nat.eqb (occurrences (columns df) "WY event") 1) then
      [ (Page, Uncaught "AttributeError") ]
    else
      let wy_event_options := sorted (unique_str (column_values df "WY event")) in
      let options_with_all := "All" :: wy_event_options in
      let filtered_df := primary_filter df selected_event in
      let final_df := secondary_filter filtered_df output_cols selected_attributes in
      [ (Sidebar, Selectbox "1. Select a 'WY event':" options_with_all);
        (Sidebar, Multiselect "2. (Optional) Filter by WY Output Attributes:"
                    (sorted (cleaned_attributes filtered_df output_cols selected_event)));
        (Page, Header ("🔍 Visualizing Rules for: `" ++ selected_event ++ "`")) ]
      ++ display_merged_rules final_df input_cols output_cols.

(* ================================================================== *)
(** * Sample tables *)
(* ================================================================== *)

(** A loaded table with one input column and two output columns. *)
Definition demo : DataFrame string :=
  mkDF ["A"; "WY event"; "Out"]
       [ mkRow 0 ["NOTp"; "X"; "Y"];
         mkRow 1 ["q"; "X"; "Y"];
         mkRow 2 ["r"; "X"; "Z"];
         mkRow 3 [""; "W"; ""] ].

Definition demo_outputs : list string := ["WY event"; "Out"].

Definition demo_groups : list Group :=
  Eval vm_compute in
    match groupby demo demo_outputs with
    | Some gs => gs
    | None => []
    end.

(* ================================================================== *)
(** * Closed forms of the loops *)
(* ================================================================== *)

(** [h] applied to every cell of a row, given the label of the cell. *)
Fixpoint relabel {A} (h : string -> A -> A) (cols : list string) (vals : list A)
  : list A :=
  match cols, vals with
  | k :: cols', v :: vals' => h k v :: relabel h cols' vals'
  | _, _ => vals
  end.

Definition map_cells {A} (h : string -> A -> A) (df : DataFrame A) : DataFrame A :=
  mkDF (columns df)
       (map (fun r => mkRow (label r) (relabel h (columns df) (cells r))) (rows df)).

(** What normalization does to a cell under the label [k]. *)
Definition norm_cell (input_cols output_cols : list string) (k : string) (v : cell)
  : cell :=
  let v1 := if mem k input_cols then negation_to_NOT v else v in
  if mem k output_cols then astype_str v1 else v1.

(** The loop over the input columns raises nowhere. *)
Definition inputs_ok (cols input_cols : list string) : bool :=
  forallb (fun c => negb (mem c cols) || Nat.eqb (occurrences cols c) 1) input_cols.

(* ================================================================== *)
(** * Merged rules of a run *)
(* ================================================================== *)

(** What one turn of the loop over [grouped] shows: the input side, the
    output side, and how many rows were folded into the rule. *)
Record MergedRule : Type :=
  mkRule { inputs_shown : list (string * list string);
           outputs_shown : list (string * string);
           folded : nat }.

Definition rules_of (df : DataFrame string) (input_cols output_cols : list string)
  : list MergedRule :=
  match groupby df output_cols with
  | Some grouped =>
      map (fun g => mkRule (input_display (group g) input_cols)
                           (output_display output_cols (output_values g))
                           (member_count g))
          grouped
  | None => []
  end.

(** The rules [main] displays for a read result and a selection. *)
Definition merged_rules (csv : csv_result) (selected_event : string)
    (selected_attributes : list string) : list MergedRule :=
  let '(_, (df, input_cols, output_cols)) := load_data csv in
  rules_of (secondary_filter (primary_filter df selected_event)
                             output_cols selected_attributes)
           input_cols output_cols.

(* ================================================================== *)
(** * Properties of rows, groups and pages *)
(* ================================================================== *)

Definition is_str (v : cell) : Prop := exists s, v = CStr s.


(** [k1] comes strictly before [k2] in Python's order on tuples. *)
Definition key_lt (k1 k2 : key) : Prop := key_compare k1 k2 = Lt.

(** The row [r] shows the attribute [a] under one of the labels. *)
Definition shows (header : list string) (r : Row string) (cols : list string)
    (a : string) : Prop :=
  exists c, In c cols /\ In a (select header (cells r) c).

(** A selectbox or a multiselect, as opposed to a text. *)
Definition is_widget (e : ui) : bool :=
  match snd e with
  | Selectbox _ _ | Multiselect _ _ => true
  | _ => false
  end.

(** What can be seen on the page. *)
Definition no_matches (page : list ui) : Prop := In (Page, Warning no_rules) page.
Definition halted (page : list ui) : Prop := In (Page, Stop) page.
Definition reports_error (page : list ui) : Prop :=
  exists message, In (Page, Error message) page.

(* ================================================================== *)
(** * More sample tables *)
(* ================================================================== *)

(** The same rows as [demo], arriving in another order. *)
Definition demo_shuffled : DataFrame string :=
  mkDF ["A"; "WY event"; "Out"]
       [ mkRow 2 ["r"; "X"; "Z"];
         mkRow 1 ["q"; "X"; "Y"];
         mkRow 3 [""; "W"; ""];
         mkRow 0 ["NOTp"; "X"; "Y"] ].

(** A table in which no row shows both ["Y"] and ["Z"]. *)
Definition apart : DataFrame string :=
  mkDF ["A"; "WY event"; "Out"]
       [ mkRow 0 ["p"; "X"; "Y"];
         mkRow 1 ["q"; "X"; "Z"] ].

(** A table on which the selection [["Y"; "Z"]] matches no row. *)
Definition apart_raw : csv_result :=
  ReadOk (mkDF ["A"; "WY event"; "Out"]
               [ mkRow 0 [CStr "p"; CStr "X"; CStr "Y"];
                 mkRow 1 [CStr "q"; CStr "X"; CStr "Z"] ]).

(** A table in which the word [All] is an output value. *)
Definition all_as_value : csv_result :=
  ReadOk (mkDF ["A"; "WY event"; "Scope"]
               [ mkRow 0 [CStr "p"; CStr "X"; CStr "All"];
                 mkRow 1 [CStr "q"; CStr "X"; CStr "Some"] ]).

(** The header of a table read from a file in which the pivot label is
    followed by a blank. *)
Definition padded_pivot : DataFrame cell :=
  mkDF ["A"; "WY event "; "Out"]
       [ mkRow 0 [CStr "~p"; CStr "X"; CStr "Y"] ].

(** A raw table with a number column, a negated condition and an output. *)
Definition raw_demo : DataFrame cell :=
  mkDF ["Level"; "A"; "WY event"]
       [ mkRow 0 [CInt 3; CStr "~p & ~q"; CStr "X"];
         mkRow 1 [CInt (-1); CStr "NOT r"; CStr "Y"] ].

Definition normalized_demo : DataFrame cell :=
  mkDF ["Level"; "A"; "WY event"]
       [ mkRow 0 [CStr "3"; CStr "NOTp & NOTq"; CStr "X"];
         mkRow 1 [CStr "-1"; CStr "NOT r"; CStr "Y"] ].

(** The table of the example, as written, and with its last column
    carrying the name the program looks for. *)
Definition example_rows : list (Row cell) :=
  [ mkRow 0 [CStr "X"; CStr "~p"; CStr ""; CStr "Y"];
    mkRow 1 [CStr "X"; CStr "q"; CStr ""; CStr "Y"] ].

Definition example_table : csv_result :=
  ReadOk (mkDF ["Event"; "A"; "B"; "Out1"] example_rows).

Definition example_table_pivoted : csv_result :=
  ReadOk (mkDF ["Event"; "A"; "B"; "WY event"] example_rows).

(** A file with a header line only. *)
Definition header_only : csv_result := ReadOk (mkDF ["A"; "WY event"; "Out"] []).

(* ================================================================== *)
(** * Intermediate frames and further properties *)
(* ================================================================== *)

(** The frame [load_data] holds at line 40: the optional columns dropped
    and the labels trimmed, the cells still as read. *)
Definition trimmed (raw : DataFrame cell) : DataFrame cell :=
  mkDF (map strip (columns (drop_columns cols_to_drop raw)))
       (rows (drop_columns cols_to_drop raw)).

(** The cells of a frame under a label, row after row. *)
Definition column_cells (df : DataFrame cell) (col : string) : list cell :=
  flat_map (fun r => select (columns df) (cells r) col) (rows df).

(** The string has a [~] somewhere. *)
Definition contains_tilde (s : string) : bool :=
  existsb (Ascii.eqb "~"%char) (list_ascii_of_string s).

(** [s1 < s2] on Python strings. *)
Definition str_lt (s1 s2 : string) : Prop := String.compare s1 s2 = Lt.

(** An [st.error] element. *)
Definition is_error (e : ui) : bool :=
  match snd e with
  | Error _ => true
  | _ => false
  end.

(** The line shown when a rule has no output value to show (line 111). *)
Definition no_specific_outputs : ui :=
  (Column 1, Markdown "_No specific output attributes for this rule._").

(** An element that is drawn only once a table is loaded: a filter
    widget, the page header or the rule count. *)
Definition past_loading (e : ui) : bool :=
  match e with
  | (_, Selectbox _ _) | (_, Multiselect _ _) | (_, Subheader _)
  | (Page, Header _) => true
  | _ => false
  end.

(** The kinds of element a rule display is made of, and those of the
    body of one rule. *)
Definition rule_element (e : ui) : bool :=
  match snd e with
  | Warning _ | Subheader _ | Markdown _ | Info _ _ | Success _ _
  | Uncaught _ => true
  | _ => false
  end.

Definition rule_text (e : ui) : bool :=
  match snd e with
  | Markdown _ | Info _ _ | Success _ _ => true
  | _ => false
  end.

(** The heading of the rule numbered [n] (line 75), and the test for
    such a heading. *)
Definition heading (n : nat) : ui := (Page, Markdown ("#### Rule #" ++ str_of_nat n)).

Definition rule_heading (e : ui) : bool :=
  match e with
  | (Page, Markdown body) => prefix "#### Rule #" body
  | _ => false
  end.

(** A raw table with an optional column, a padded label and a [~] in an
    output cell. *)
Definition raw_wide : DataFrame cell :=
  mkDF ["A"; "SB attributes"; " B "; "WY event"; "Out"]
       [ mkRow 0 [CStr "~p"; CStr "s1"; CInt 7; CStr "X"; CStr "~y"];
         mkRow 1 [CStr "q"; CStr "s2"; CInt 8; CStr "X"; CStr ""] ].

Definition loaded_wide : DataFrame string :=
  mkDF ["A"; "B"; "WY event"; "Out"]
       [ mkRow 0 ["NOTp"; "7"; "X"; "~y"];
         mkRow 1 ["q"; "8"; "X"; ""] ].

(* ================================================================== *)
(** * The primitives at work *)
(* ================================================================== *)

Example replace_tilde_sample : replace_tilde "~a & ~~b" = "NOTa & NOTNOTb".
Proof. reflexivity. Qed.

Example strip_sample :
  strip "  WY event " = "WY event"
  /\ strip (String (ascii_of_nat 9) " a b ") = "a b"
  /\ strip (String (ascii_of_nat 194) (String (ascii_of_nat 160) "x")) = "x"
  /\ strip "   " = "".
Proof. repeat split; reflexivity. Qed.

Example sorted_sample :
  sorted ["b"; "a"; "B"; ""; "ab"; "a"] = [""; "B"; "a"; "a"; "ab"; "b"].
Proof. reflexivity. Qed.

Example unique_sample : unique_str ["b"; "a"; "b"; "c"; "a"] = ["b"; "a"; "c"].
Proof. reflexivity. Qed.

Example str_sample :
  str (CInt (-12)) = "-12" /\ str (CInt 0) = "0" /\ str (CBool true) = "True".
Proof. repeat split; reflexivity. Qed.

Example group_keys_sample :
  group_keys demo demo_outputs = [["W"; ""]; ["X"; "Y"]; ["X"; "Z"]].
Proof. reflexivity. Qed.

Example load_data_sample :
  load_data (ReadOk raw_demo)
  = ([], (mkDF ["Level"; "A"; "WY event"]
               [ mkRow 0 ["3"; "NOTp & NOTq"; "X"];
                 mkRow 1 ["-1"; "NOT r"; "Y"] ],
          ["Level"; "A"], ["WY event"])).
Proof. reflexivity. Qed.

Example display_stops_at_a_missing_input_label :
  display_merged_rules demo ["A"; "Nope"; "A"] ["WY event"]
  = [ (Page, Subheader "Found 2 Unique Output Rule(s)");
      (Page, Markdown "---");
      (Page, Markdown "#### Rule #1");
      (Column 0, Info "**SB Input Conditions (Source)**" "📥");
      (Page, Uncaught "KeyError") ].
Proof. reflexivity. Qed.

Example display_of_a_missing_output_label :
  display_merged_rules demo ["A"] ["Nope"] = [ (Page, Uncaught "KeyError") ]
  /\ display_merged_rules demo ["A"] [] = [ (Page, Uncaught "ValueError") ].
Proof. split; reflexivity. Qed.

Example secondary_filter_of_no_rows :
  secondary_filter (mkDF ["A"; "WY event"] []) ["WY event"] ["X"] = mkDF [] []
  /\ secondary_filter (mkDF ["A"; "WY event"] []) ["WY event"] []
     = mkDF ["A"; "WY event"] [].
Proof. split; reflexivity. Qed.

Example common_outputs_of_a_repeated_label :
  common_outputs ["a"; "b"; "a"] ["1"; "2"; "3"] = [("a", "3"); ("b", "2")].
Proof. reflexivity. Qed.

(* ================================================================== *)
(** * Orders: characters, strings, keys *)
(* ================================================================== *)

Section LexicographicFacts.
Variable A : Type.
Variable cmp : A -> A -> comparison.
Hypothesis cmp_ord : Ordering cmp.

Lemma lex_compare_eq l1 : forall l2, lex_compare cmp l1 l2 = Eq -> l1 = l2.
Proof.
  induction l1 as [|a l1 IH]; intros [|b l2]; simpl; try discriminate; auto.
  destruct (cmp a b) eqn:E; try discriminate.
  intros H. apply (cmp_eq cmp_ord) in E. apply IH in H. congruence.
Qed.

Lemma lex_compare_refl l : lex_compare cmp l l = Eq.
Proof.
  induction l as [|a l IH]; simpl; auto.
  now rewrite (cmp_refl cmp_ord).
Qed.

Lemma lex_compare_antisym l1 :
  forall l2, lex_compare cmp l1 l2 = CompOpp (lex_compare cmp l2 l1).
Proof.
  induction l1 as [|a l1 IH]; intros [|b l2]; simpl; auto.
  rewrite (cmp_antisym cmp_ord a b).
  destruct (cmp b a); simpl; auto.
Qed.

Lemma lex_compare_trans l1 :
  forall l2 l3,
    lex_compare cmp l1 l2 = Lt -> lex_compare cmp l2 l3 = Lt ->
    lex_compare cmp l1 l3 = Lt.
Proof.
  induction l1 as [|a l1 IH]; intros [|b l2] [|c l3]; simpl;
    try discriminate; auto.
  destruct (cmp a b) eqn:Eab; try discriminate;
    destruct (cmp b c) eqn:Ebc; try discriminate; intros H1 H2.
  - apply (cmp_eq cmp_ord) in Eab, Ebc. subst.
    rewrite (cmp_refl cmp_ord). eauto.
  - apply (cmp_eq cmp_ord) in Eab. subst. now rewrite Ebc.
  - apply (cmp_eq cmp_ord) in Ebc. subst. now rewrite Eab.
  - now rewrite (cmp_trans cmp_ord _ _ _ Eab Ebc).
Qed.

Lemma lex_ordering : Ordering (lex_compare cmp).
Proof.
  constructor.
  - intros a b. apply lex_compare_eq.
  - apply lex_compare_refl.
  - intros a b. apply lex_compare_antisym.
  - intros a b c. apply lex_compare_trans.
Qed.

(** The order [leb_of cmp] is total, transitive and antisymmetric. *)
Lemma leb_of_total x y : leb_of cmp x y = true \/ leb_of cmp y x = true.
Proof.
  unfold leb_of. rewrite (cmp_antisym cmp_ord x y).
  destruct (cmp y x); simpl; auto.
Qed.

Lemma leb_of_antisym x y :
  leb_of cmp x y = true -> leb_of cmp y x = true -> x = y.
Proof.
  unfold leb_of. rewrite (cmp_antisym cmp_ord y x).
  destruct (cmp x y) eqn:E; simpl; try discriminate.
  intros _ _. now apply (cmp_eq cmp_ord).
Qed.

Lemma leb_of_trans x y z :
  leb_of cmp x y = true -> leb_of cmp y z = true -> leb_of cmp x z = true.
Proof.
  unfold leb_of.
  destruct (cmp x y) eqn:Exy; try discriminate;
    destruct (cmp y z) eqn:Eyz; try discriminate; intros _ _.
  - apply (cmp_eq cmp_ord) in Exy, Eyz. subst. now rewrite (cmp_refl cmp_ord).
  - apply (cmp_eq cmp_ord) in Exy. subst. now rewrite Eyz.
  - apply (cmp_eq cmp_ord) in Eyz. subst. now rewrite Exy.
  - now rewrite (cmp_trans cmp_ord _ _ _ Exy Eyz).
Qed.

Lemma leb_of_neq_lt x y : leb_of cmp x y = true -> x <> y -> cmp x y = Lt.
Proof.
  unfold leb_of. destruct (cmp x y) eqn:E; try discriminate; auto.
  intros _ N. elim N. now apply (cmp_eq cmp_ord).
Qed.
End LexicographicFacts.

Lemma ascii_ordering : Ordering Ascii.compare.
Proof.
  constructor.
  - apply Ascii.compare_eq_iff.
  - intros a. unfold Ascii.compare. apply N.compare_refl.
  - apply Ascii.compare_antisym.
  - intros a b c. unfold Ascii.compare.
    rewrite !N.compare_lt_iff. apply N.lt_trans.
Qed.

(** [String.compare] is the lexicographic comparison of the character
    sequences. *)
Lemma string_compare_lex s1 :
  forall s2,
    String.compare s1 s2
    = lex_compare Ascii.compare (list_ascii_of_string s1) (list_ascii_of_string s2).
Proof.
  induction s1 as [|a s1 IH]; intros [|b s2]; simpl; auto.
  rewrite IH. now destruct (Ascii.compare a b).
Qed.

Lemma list_ascii_of_string_inj s1 s2 :
  list_ascii_of_string s1 = list_ascii_of_string s2 -> s1 = s2.
Proof.
  intros H.
  rewrite <- (string_of_list_ascii_of_string s1),
          <- (string_of_list_ascii_of_string s2).
  now rewrite H.
Qed.

Lemma string_ordering : Ordering String.compare.
Proof.
  pose proof (lex_ordering ascii_ordering) as L.
  constructor.
  - intros a b. rewrite string_compare_lex. intros H.
    apply list_ascii_of_string_inj. now apply (cmp_eq L).
  - intros a. rewrite string_compare_lex. apply (cmp_refl L).
  - intros a b. rewrite !string_compare_lex. apply (cmp_antisym L).
  - intros a b c. rewrite !string_compare_lex. apply (cmp_trans L).
Qed.

Lemma key_ordering : Ordering key_compare.
Proof. apply lex_ordering, string_ordering. Qed.

Lemma string_leb_of s1 s2 : String.leb s1 s2 = leb_of String.compare s1 s2.
Proof. unfold String.leb, leb_of. now destruct (String.compare s1 s2). Qed.

(* ================================================================== *)
(** * [sort_by] and [unique] *)
(* ================================================================== *)

Section SortingFacts.
Variable A : Type.
Variable leb : A -> A -> bool.

Let le (x y : A) : Prop := leb x y = true.

Lemma insert_sorted_perm x l : Permutation (insert_sorted leb x l) (x :: l).
Proof.
  induction l as [|y l IH]; simpl; auto.
  destruct (leb x y); auto.
  rewrite IH. apply perm_swap.
Qed.

Lemma sort_by_perm l : Permutation (sort_by leb l) l.
Proof.
  induction l as [|x l IH]; simpl; auto.
  rewrite insert_sorted_perm. now constructor.
Qed.

Lemma sort_by_In x l : In x (sort_by leb l) <-> In x l.
Proof.
  split; apply Permutation_in;
    [ apply sort_by_perm | apply Permutation_sym, sort_by_perm ].
Qed.

Lemma sort_by_length l : List.length (sort_by leb l) = List.length l.
Proof. apply Permutation_length, sort_by_perm. Qed.

Lemma sort_by_NoDup l : NoDup l -> NoDup (sort_by leb l).
Proof.
  intros H. eapply Permutation_NoDup; [ | exact H ].
  apply Permutation_sym, sort_by_perm.
Qed.

Hypothesis leb_total : forall x y, leb x y = true \/ leb y x = true.
Hypothesis leb_trans : forall x y z, leb x y = true -> leb y z = true -> leb x z = true.
Hypothesis leb_antisym : forall x y, leb x y = true -> leb y x = true -> x = y.

Lemma insert_sorted_ascending x l :
  StronglySorted le l -> StronglySorted le (insert_sorted leb x l).
Proof.
  induction 1 as [|y l Hs IH Hall]; simpl.
  - repeat constructor.
  - destruct (leb x y) eqn:E.
    + constructor; [ now constructor | ].
      constructor; [ exact E | ].
      eapply Forall_impl; [ | exact Hall ].
      intros z Hz. now apply leb_trans with y.
    + constructor; [ exact IH | ].
      apply Forall_forall. intros z Hz.
      apply (Permutation_in _ (insert_sorted_perm x l)) in Hz.
      destruct Hz as [<- | Hz].
      * destruct (leb_total x y) as [H | H]; [ congruence | exact H ].
      * rewrite Forall_forall in Hall. now apply Hall.
Qed.

Lemma sort_by_ascending l : StronglySorted le (sort_by leb l).
Proof.
  induction l as [|x l IH]; simpl.
  - constructor.
  - now apply insert_sorted_ascending.
Qed.

(** An ascending list is determined by its elements. *)
Lemma ascending_unique l1 :
  forall l2,
    StronglySorted le l1 -> StronglySorted le l2 -> Permutation l1 l2 ->
    l1 = l2.
Proof.
  induction l1 as [|x l1 IH]; intros l2 H1 H2 P.
  - now apply Permutation_nil in P.
  - destruct l2 as [|y l2].
    + apply Permutation_sym, Permutation_nil in P. discriminate.
    + inversion H1 as [|? ? S1 F1]; subst.
      inversion H2 as [|? ? S2 F2]; subst.
      rewrite Forall_forall in F1, F2.
      assert (x = y) as ->.
      { assert (In x (y :: l2)) as Hx
            by (apply (Permutation_in _ P); now left).
        assert (In y (x :: l1)) as Hy
            by (apply (Permutation_in _ (Permutation_sym P)); now left).
        destruct Hx as [-> | Hx]; auto.
        destruct Hy as [-> | Hy]; auto.
        apply leb_antisym; [ now apply F1 | now apply F2 ]. }
      f_equal. apply IH; auto.
      now apply Permutation_cons_inv in P.
Qed.

Lemma sort_by_permuted l1 l2 :
  Permutation l1 l2 -> sort_by leb l1 = sort_by leb l2.
Proof.
  intros P. apply ascending_unique; try apply sort_by_ascending.
  rewrite !sort_by_perm. exact P.
Qed.
End SortingFacts.

Section UniqueFacts.
Variable A : Type.
Variable eq_dec : forall x y : A, {x = y} + {x <> y}.

Lemma differs_true x y : differs eq_dec x y = true <-> y <> x.
Proof. unfold differs. destruct (eq_dec y x); split; congruence. Qed.

Lemma unique_In x l : In x (unique eq_dec l) <-> In x l.
Proof.
  induction l as [|y l IH]; simpl; [ tauto | ].
  rewrite filter_In, differs_true, IH.
  destruct (eq_dec y x); [ subst | ]; intuition congruence.
Qed.

Lemma unique_NoDup l : NoDup (unique eq_dec l).
Proof.
  induction l as [|y l IH]; simpl; constructor.
  - rewrite filter_In, differs_true. tauto.
  - now apply NoDup_filter.
Qed.

Lemma unique_permuted l1 l2 :
  Permutation l1 l2 -> Permutation (unique eq_dec l1) (unique eq_dec l2).
Proof.
  intros P. apply NoDup_Permutation; try apply unique_NoDup.
  intros x. rewrite !unique_In.
  split; apply Permutation_in; [ exact P | now apply Permutation_sym ].
Qed.
End UniqueFacts.

(* ================================================================== *)
(** * Rows and labels *)
(* ================================================================== *)

Lemma mem_In x l : mem x l = true <-> In x l.
Proof.
  unfold mem. rewrite existsb_exists. split.
  - intros [y [Hy E]]. apply String.eqb_eq in E. now subst.
  - intros H. exists x. split; auto. apply String.eqb_refl.
Qed.

Lemma key_eqb_eq k1 k2 : key_eqb k1 k2 = true <-> k1 = k2.
Proof. unfold key_eqb. destruct (key_dec k1 k2); split; congruence. Qed.

Lemma select_length {A} (cols : list string) c :
  forall vals : list A,
    List.length vals = List.length cols ->
    List.length (select cols vals c) = occurrences cols c.
Proof.
  unfold occurrences.
  induction cols as [|k cols IH]; intros [|v vals]; simpl; try discriminate; auto.
  intros H. injection H as H.
  destruct (String.eqb_spec k c) as [-> | N].
  - destruct (string_dec c c); [ | congruence ]. simpl. now rewrite IH.
  - destruct (string_dec k c); [ congruence | ]. now apply IH.
Qed.




Lemma rectangular_row {A} (df : DataFrame A) r :
  rectangular df = true -> In r (rows df) ->
  List.length (cells r) = List.length (columns df).
Proof.
  unfold rectangular. rewrite forallb_forall. intros H Hr.
  now apply Nat.eqb_eq, H.
Qed.

(* ================================================================== *)
(** * Grouping *)
(* ================================================================== *)

Section GroupingFacts.
Variable df : DataFrame string.
Variable by_ : list string.

Lemma group_keys_In k :
  In k (group_keys df by_) <-> exists r, In r (rows df) /\ row_key df by_ r = k.
Proof.
  unfold group_keys. rewrite sort_by_In, unique_In, in_map_iff.
  split; intros [r [H1 H2]]; exists r; auto.
Qed.

Lemma group_keys_NoDup : NoDup (group_keys df by_).
Proof. apply sort_by_NoDup, unique_NoDup. Qed.

Lemma members_In k r :
  In r (rows (members df by_ k)) <-> In r (rows df) /\ row_key df by_ r = k.
Proof. unfold members. simpl. now rewrite filter_In, key_eqb_eq. Qed.

(** What a successful [groupby] is. *)
Lemma groupby_Some gs :
  groupby df by_ = Some gs ->
  by_ <> []
  /\ (forall c, In c by_ -> occurrences (columns df) c = 1)
  /\ gs = map (fun k => mkGroup k (members df by_ k)) (group_keys df by_).
Proof.
  unfold groupby. destruct by_ as [|c0 l] eqn:Eby; [ discriminate | ].
  destruct (forallb _ _) eqn:F; [ | discriminate ].
  intros H. injection H as <-.
  rewrite forallb_forall in F.
  repeat split; [ discriminate | ].
  intros c Hc. now apply Nat.eqb_eq, F.
Qed.

Lemma groupby_In gs g :
  groupby df by_ = Some gs ->
  (In g gs <->
   In (output_values g) (group_keys df by_)
   /\ group g = members df by_ (output_values g)).
Proof.
  intros H. apply groupby_Some in H. destruct H as [_ [_ ->]].
  rewrite in_map_iff. split.
  - intros [k [<- Hk]]. simpl. auto.
  - intros [Hk Hg]. exists (output_values g). split; auto.
    destruct g as [k d]. simpl in *. now subst.
Qed.

Lemma groupby_keys gs :
  groupby df by_ = Some gs -> map output_values gs = group_keys df by_.
Proof.
  intros H. apply groupby_Some in H. destruct H as [_ [_ ->]].
  rewrite map_map. simpl. apply map_id.
Qed.




End GroupingFacts.





(* ================================================================== *)
(** * Order of the groups and arrival order of the rows *)
(* ================================================================== *)

Lemma ascending_strict (l : list key) :
  StronglySorted (fun k1 k2 => key_leb k1 k2 = true) l -> NoDup l ->
  StronglySorted key_lt l.
Proof.
  induction 1 as [|k l Hs IH Hall]; intros Hnd; constructor.
  - apply IH. now inversion Hnd.
  - inversion Hnd as [|? ? Hk _]; subst.
    rewrite Forall_forall in *. intros k' Hk'.
    apply (leb_of_neq_lt key_ordering); [ now apply Hall | ].
    intros ->. contradiction.
Qed.

Lemma key_leb_total k1 k2 : key_leb k1 k2 = true \/ key_leb k2 k1 = true.
Proof. apply (leb_of_total key_ordering). Qed.

Lemma key_leb_trans k1 k2 k3 :
  key_leb k1 k2 = true -> key_leb k2 k3 = true -> key_leb k1 k3 = true.
Proof. apply (leb_of_trans key_ordering). Qed.

Lemma key_leb_antisym k1 k2 :
  key_leb k1 k2 = true -> key_leb k2 k1 = true -> k1 = k2.
Proof. apply (leb_of_antisym key_ordering). Qed.

Lemma string_leb_trans s1 s2 s3 :
  String.leb s1 s2 = true -> String.leb s2 s3 = true -> String.leb s1 s3 = true.
Proof. rewrite !string_leb_of. apply (leb_of_trans string_ordering). Qed.

Lemma group_keys_ascending df by_ : StronglySorted key_lt (group_keys df by_).
Proof.
  apply ascending_strict.
  - apply sort_by_ascending; [ apply key_leb_total | apply key_leb_trans ].
  - apply group_keys_NoDup.
Qed.

Lemma group_keys_permuted df df' by_ :
  columns df' = columns df -> Permutation (rows df) (rows df') ->
  group_keys df' by_ = group_keys df by_.
Proof.
  intros C P. unfold group_keys.
  apply sort_by_permuted;
    [ apply key_leb_total | apply key_leb_trans | apply key_leb_antisym | ].
  apply unique_permuted. unfold row_key. rewrite C.
  apply Permutation_map. now apply Permutation_sym.
Qed.

Lemma filter_permuted {A} (f : A -> bool) l l' :
  Permutation l l' -> Permutation (filter f l) (filter f l').
Proof.
  induction 1 as [ | x l l' P IH | x y l | l l' l'' P1 IH1 P2 IH2 ]; simpl.
  - constructor.
  - destruct (f x); auto.
  - destruct (f x), (f y); auto. apply perm_swap.
  - now transitivity (filter f l').
Qed.

Lemma flat_map_permuted {A B} (f : A -> list B) l l' :
  Permutation l l' -> Permutation (flat_map f l) (flat_map f l').
Proof.
  induction 1 as [ | x l l' P IH | x y l | l l' l'' P1 IH1 P2 IH2 ]; simpl.
  - constructor.
  - now apply Permutation_app_head.
  - rewrite !app_assoc. apply Permutation_app_tail, Permutation_app_comm.
  - now transitivity (flat_map f l').
Qed.

Lemma sorted_permuted l l' : Permutation l l' -> sorted l = sorted l'.
Proof.
  apply sort_by_permuted;
    [ apply String.leb_total | apply string_leb_trans | apply String.leb_antisym ].
Qed.

(** The input side of a rule does not depend on the order of the member
    rows. *)
Lemma input_display_permuted g g' input_cols :
  columns g' = columns g -> Permutation (rows g) (rows g') ->
  input_display g' input_cols = input_display g input_cols.
Proof.
  intros C P. unfold input_display.
  apply flat_map_ext. intros col.
  assert (Permutation (cleaned_vals g col) (cleaned_vals g' col)) as Q.
  { unfold cleaned_vals, unique_str, column_values. rewrite C.
    apply filter_permuted, unique_permuted. now apply flat_map_permuted. }
  apply sorted_permuted in Q as S.
  destruct (cleaned_vals g col) eqn:E1.
  - now apply Permutation_nil in Q as ->.
  - destruct (cleaned_vals g' col) eqn:E2.
    + apply Permutation_sym, Permutation_nil in Q. discriminate.
    + now rewrite S.
Qed.

Lemma members_permuted df df' by_ k :
  columns df' = columns df -> Permutation (rows df) (rows df') ->
  columns (members df' by_ k) = columns (members df by_ k)
  /\ Permutation (rows (members df by_ k)) (rows (members df' by_ k)).
Proof.
  intros C P. unfold members, row_key. simpl. rewrite C. split; auto.
  now apply filter_permuted.
Qed.

Lemma cleaned_vals_permuted g g' col :
  columns g' = columns g -> Permutation (rows g) (rows g') ->
  Permutation (cleaned_vals g col) (cleaned_vals g' col).
Proof.
  intros C P. unfold cleaned_vals, unique_str, column_values. rewrite C.
  apply filter_permuted, unique_permuted. now apply flat_map_permuted.
Qed.

Lemma input_lines_permuted g g' input_cols :
  columns g' = columns g -> Permutation (rows g) (rows g') ->
  input_lines g' input_cols = input_lines g input_cols.
Proof.
  intros C P. induction input_cols as [|col rest IH]; [ reflexivity | ].
  cbn [input_lines]. rewrite C, IH.
  destruct (label_error (columns g) col); [ reflexivity | ].
  pose proof (@cleaned_vals_permuted g g' col C P) as Q.
  apply sorted_permuted in Q as S.
  destruct (cleaned_vals g col) eqn:E1.
  - now apply Permutation_nil in Q as ->.
  - destruct (cleaned_vals g' col) eqn:E2.
    + apply Permutation_sym, Permutation_nil in Q. discriminate.
    + now rewrite S.
Qed.

Lemma display_rules_permuted df df' by_ input_cols output_cols keys :
  columns df' = columns df -> Permutation (rows df) (rows df') ->
  forall start : nat,
    display_rules input_cols output_cols
      (combine (seq start (List.length (map (fun k => mkGroup k (members df' by_ k)) keys)))
               (map (fun k => mkGroup k (members df' by_ k)) keys))
    = display_rules input_cols output_cols
        (combine (seq start (List.length (map (fun k => mkGroup k (members df by_ k)) keys)))
                 (map (fun k => mkGroup k (members df by_ k)) keys)).
Proof.
  intros C P. induction keys as [|k keys IH]; intros start; [ reflexivity | ].
  cbn [map List.length seq combine display_rules].
  rewrite IH. unfold display_rule. cbn [group output_values].
  destruct (@members_permuted df df' by_ k C P) as [C' P'].
  now rewrite (@input_lines_permuted _ _ input_cols C' P').
Qed.

Lemma display_merged_rules_permuted df df' input_cols output_cols :
  columns df' = columns df -> Permutation (rows df) (rows df') ->
  display_merged_rules df' input_cols output_cols
  = display_merged_rules df input_cols output_cols.
Proof.
  intros C P. unfold display_merged_rules.
  assert (empty df' = empty df) as ->.
  { unfold empty. rewrite C. destruct (rows df) eqn:E.
    - now apply Permutation_nil in P as ->.
    - destruct (rows df') eqn:E'; auto.
      apply Permutation_sym, Permutation_nil in P. discriminate. }
  destruct (empty df); auto.
  unfold groupby. rewrite C, (@group_keys_permuted df df' output_cols C P).
  destruct output_cols as [|c l]; auto.
  destruct (forallb _ _); auto.
  rewrite !length_map. f_equal.
  pose proof (@display_rules_permuted df df' (c :: l) input_cols (c :: l)
                (group_keys df (c :: l)) C P 1) as D.
  rewrite !length_map in D. exact D.
Qed.

Lemma demo_shuffled_permuted : Permutation (rows demo) (rows demo_shuffled).
Proof.
  simpl.
  apply (Permutation_cons_app [_; _; _] []). simpl.
  apply (Permutation_cons_app [_] [_]). simpl.
  apply Permutation_refl.
Defined.

(** C6.  The merged rules come out in strictly ascending order of their
    output-key tuples (Python's lexicographic order on tuples of strings),
    and what is emitted does not depend on the order in which the rows
    arrive: a rearranged table gives the same sequence of keys and the
    same display. *)
Theorem groups_ascending_whatever_the_row_order
    (df : DataFrame string) (output_cols : list string) (grouped : list Group) :
  groupby df output_cols = Some grouped ->
  StronglySorted key_lt (map output_values grouped)
  /\ forall df',
       columns df' = columns df -> Permutation (rows df) (rows df') ->
       (exists grouped',
           groupby df' output_cols = Some grouped'
           /\ map output_values grouped' = map output_values grouped)
       /\ forall input_cols,
           display_merged_rules df' input_cols output_cols
           = display_merged_rules df input_cols output_cols.
Proof.
  intros G. split.
  - rewrite (groupby_keys _ _ G). apply group_keys_ascending.
  - intros df' C P. split.
    + destruct (groupby_Some _ _ G) as [Hne [Hocc _]].
      assert (exists grouped', groupby df' output_cols = Some grouped') as [gs' G'].
      { unfold groupby. destruct output_cols as [|c l]; [ congruence | ].
        rewrite C.
        assert (forallb (fun c0 => Nat.eqb (occurrences (columns df) c0) 1) (c :: l)
                = true) as ->; eauto.
        apply forallb_forall. intros x Hx. now apply Nat.eqb_eq, Hocc. }
      exists gs'. split; auto.
      rewrite (groupby_keys _ _ G), (groupby_keys _ _ G').
      now apply group_keys_permuted.
    + intros input_cols. now apply display_merged_rules_permuted.
Qed.

Lemma groups_ascending_whatever_the_row_order_witness :
  StronglySorted key_lt (map output_values demo_groups)
  /\ display_merged_rules demo_shuffled ["A"] demo_outputs
     = display_merged_rules demo ["A"] demo_outputs.
Proof.
  destruct (@groups_ascending_whatever_the_row_order demo demo_outputs demo_groups
              eq_refl) as [S I].
  split; [ exact S | ].
  destruct (I demo_shuffled eq_refl demo_shuffled_permuted) as [_ D].
  apply D.
Defined.

(* ================================================================== *)
(** * The secondary filter *)
(* ================================================================== *)

Lemma row_values_In {A} (header : list string) (r : Row A) cols (a : A) :
  In a (row_values header r cols)
  <-> exists c, In c cols /\ In a (select header (cells r) c).
Proof. unfold row_values. apply in_flat_map. Qed.

Lemma has_all_true df output_cols selected r :
  has_all df output_cols selected r = true
  <-> forall a, In a selected -> shows (columns df) r output_cols a.
Proof.
  unfold has_all, shows. rewrite forallb_forall.
  split; intros H a Ha.
  - now apply row_values_In, mem_In, H.
  - now apply mem_In, row_values_In, H.
Qed.

Lemma filter_length_mono {A} (f g : A -> bool) l :
  (forall x, In x l -> f x = true -> g x = true) ->
  List.length (filter f l) <= List.length (filter g l).
Proof.
  induction l as [|x l IH]; simpl; intros H; auto.
  assert (List.length (filter f l) <= List.length (filter g l)) as L
      by (apply IH; intros; apply H; auto).
  destruct (f x) eqn:F.
  - rewrite (H x) by auto. simpl. lia.
  - destruct (g x); simpl; lia.
Qed.

Lemma secondary_filter_rows df output_cols selected :
  rows (secondary_filter df output_cols selected)
  = filter (has_all df output_cols selected) (rows df).
Proof.
  destruct selected as [|a l].
  - simpl. induction (rows df) as [|r rs IH]; simpl; auto. now rewrite <- IH.
  - unfold secondary_filter. now destruct (rows df).
Qed.

(** C2.  With a non-empty selection, the secondary filter keeps a row
    exactly when every selected attribute is the value of some output
    column of the row (any column for one attribute, all attributes for
    the row); so if two selected attributes never occur together in one
    row, no row is kept. *)
Theorem secondary_filter_all_of_any
    (filtered_df : DataFrame string) (output_cols selected : list string) :
  selected <> [] ->
  (forall r, In r (rows filtered_df) ->
     (In r (rows (secondary_filter filtered_df output_cols selected))
      <-> forall a, In a selected -> shows (columns filtered_df) r output_cols a))
  /\ (forall y z, In y selected -> In z selected ->
        (forall r, In r (rows filtered_df) ->
                   ~ (shows (columns filtered_df) r output_cols y
                      /\ shows (columns filtered_df) r output_cols z)) ->
        rows (secondary_filter filtered_df output_cols selected) = []).
Proof.
  intros Hne.
  assert (rows (secondary_filter filtered_df output_cols selected)
          = filter (has_all filtered_df output_cols selected) (rows filtered_df)) as E
      by apply secondary_filter_rows.
  rewrite E. split.
  - intros r Hr. rewrite filter_In, has_all_true. tauto.
  - intros y z Hy Hz Hnever.
    destruct (filter _ _) as [|r l] eqn:F; auto.
    assert (In r (filter (has_all filtered_df output_cols selected)
                         (rows filtered_df))) as Hin
        by (rewrite F; now left).
    apply filter_In in Hin. destruct Hin as [Hr Hall].
    rewrite has_all_true in Hall.
    elim (Hnever r Hr). auto.
Qed.

Lemma secondary_filter_all_of_any_witness :
  rows (secondary_filter apart ["WY event"; "Out"] ["Y"; "Z"]) = []
  /\ (In (mkRow 0 ["p"; "X"; "Y"])
         (rows (secondary_filter apart ["WY event"; "Out"] ["X"; "Y"]))
      <-> forall a, In a ["X"; "Y"] ->
            shows (columns apart) (mkRow 0 ["p"; "X"; "Y"]) ["WY event"; "Out"] a).
Proof.
  split.
  - assert (["Y"; "Z"] <> []) as Hne by discriminate.
    destruct (@secondary_filter_all_of_any apart ["WY event"; "Out"] ["Y"; "Z"] Hne)
      as [_ Hzero].
    apply (Hzero "Y" "Z"); simpl; auto.
    intros r [<- | [<- | []]] [[c [Hc Hy]] [c' [Hc' Hz]]]; simpl in *.
    + destruct Hc' as [<- | [<- | []]]; simpl in Hz;
        destruct Hz as [Hz | []]; discriminate.
    + destruct Hc as [<- | [<- | []]]; simpl in Hy;
        destruct Hy as [Hy | []]; discriminate.
  - assert (["X"; "Y"] <> []) as Hne by discriminate.
    destruct (@secondary_filter_all_of_any apart ["WY event"; "Out"] ["X"; "Y"] Hne)
      as [Hiff _].
    apply Hiff. simpl. auto.
Defined.

(** C8.  The secondary filter never enlarges the table, and adding one
    more attribute to the selection (at any place in it) never enlarges
    the result. *)
Theorem secondary_filter_monotone
    (filtered_df : DataFrame string) (output_cols : list string) :
  (forall selected,
      List.length (rows (secondary_filter filtered_df output_cols selected))
      <= List.length (rows filtered_df))
  /\ (forall (s1 s2 : list string) (a : string),
         List.length (rows (secondary_filter filtered_df output_cols (s1 ++ a :: s2)))
         <= List.length (rows (secondary_filter filtered_df output_cols (s1 ++ s2)))).
Proof.
  split.
  - intros selected. rewrite secondary_filter_rows. apply filter_length_le.
  - intros s1 s2 a. rewrite !secondary_filter_rows.
    apply filter_length_mono. intros r _.
    unfold has_all. rewrite !forallb_app. simpl.
    rewrite !andb_true_iff. tauto.
Qed.

(* ================================================================== *)
(** * What [main] offers and what [load_data] reports *)
(* ================================================================== *)

Lemma sorted_In x l : In x (sorted l) <-> In x l.
Proof. apply sort_by_In. Qed.

Lemma cleaned_attributes_In df output_cols selected_event a :
  In a (cleaned_attributes df output_cols selected_event) ->
  a <> selected_event /\ strip a <> "".
Proof.
  unfold cleaned_attributes. rewrite filter_In, andb_true_iff, !negb_true_iff.
  intros [_ [H1 H2]]. split.
  - now apply String.eqb_neq.
  - now apply String.eqb_neq.
Qed.

Lemma input_lines_texts g input_cols :
  Forall (fun e => rule_text e = true) (fst (input_lines g input_cols)).
Proof.
  induction input_cols as [|col rest IH]; cbn [input_lines]; [ constructor | ].
  destruct (label_error (columns g) col); [ constructor | ].
  destruct (input_lines g rest) as [lines raised]. cbn [fst] in *.
  apply Forall_app. split; auto.
  destruct (cleaned_vals g col); repeat constructor.
Qed.

Lemma output_lines_texts output_cols vals :
  Forall (fun e => rule_text e = true) (output_lines output_cols vals).
Proof.
  unfold output_lines. constructor; [ reflexivity | ].
  destruct (output_display output_cols vals) as [|o l].
  - repeat constructor.
  - cbv iota. rewrite Forall_map. apply Forall_forall. reflexivity.
Qed.

Lemma display_rule_texts input_cols output_cols n g :
  Forall (fun e => rule_text e = true)
         (fst (display_rule input_cols output_cols n g)).
Proof.
  unfold display_rule.
  pose proof (input_lines_texts (group g) input_cols) as L.
  destruct (input_lines (group g) input_cols) as [lines raised]. cbn [fst] in L.
  destruct raised; cbn [fst].
  - apply Forall_app. split; [ repeat constructor | exact L ].
  - apply Forall_app. split; [ | apply output_lines_texts ].
    apply Forall_app. split; [ repeat constructor | exact L ].
Qed.

(** What the loop over the groups can show: the texts of the rules and,
    last, an exception. *)
Lemma display_rules_elements input_cols output_cols numbered :
  Forall (fun e => rule_text e = true \/ exists exn, e = (Page, Uncaught exn))
         (display_rules input_cols output_cols numbered).
Proof.
  induction numbered as [|[n g] rest IH]; cbn [display_rules]; [ constructor | ].
  pose proof (display_rule_texts input_cols output_cols n g) as T.
  destruct (display_rule input_cols output_cols n g) as [shown_here raised].
  cbn [fst] in T.
  assert (Forall (fun e => rule_text e = true \/ exists exn, e = (Page, Uncaught exn))
                 shown_here) as T'
      by (eapply Forall_impl; [ | exact T ]; auto).
  destruct raised as [exn|]; apply Forall_app; split; auto.
  constructor; [ right; eauto | constructor ].
Qed.

Lemma display_merged_rules_elements df input_cols output_cols :
  Forall (fun e => rule_element e = true)
         (display_merged_rules df input_cols output_cols).
Proof.
  unfold display_merged_rules.
  destruct (empty df); [ repeat constructor | ].
  destruct (groupby df output_cols) as [grouped|]; [ | repeat constructor ].
  constructor; [ reflexivity | ].
  eapply Forall_impl; [ | apply display_rules_elements ].
  intros [w e] [T | [exn E]].
  - unfold rule_text, rule_element in *. simpl in *.
    destruct e; auto; discriminate.
  - now rewrite E.
Qed.

Lemma display_merged_rules_texts df input_cols output_cols :
  Forall (fun e => is_widget e = false)
         (display_merged_rules df input_cols output_cols).
Proof.
  eapply Forall_impl; [ | apply display_merged_rules_elements ].
  intros [w e]. unfold rule_element, is_widget. simpl.
  destruct e; auto; discriminate.
Qed.

Lemma load_data_messages csv :
  Forall (fun e => is_widget e = false) (fst (load_data csv)).
Proof.
  unfold load_data. destruct csv as [msg | df]; [ repeat constructor | ].
  destruct (get_loc _ _); [ | repeat constructor ].
  destruct (normalize _ _ _); repeat constructor.
Qed.

(** C9.  Under the primary selection ['All'] no row is filtered out, and
    yet the output value ["All"] is withheld from the candidate secondary
    attributes: the multiselect that [main] offers never lists it,
    whatever the table. *)
Theorem all_is_never_offered_under_All :
  (forall (df : DataFrame string) (output_cols : list string),
      primary_filter df "All" = df
      /\ ~ In "All" (cleaned_attributes (primary_filter df "All") output_cols "All"))
  /\ (forall (file_exists : bool) (csv : csv_result) (selected : list string)
             (where_ : place) (caption : string) (options : list string),
         In (where_, Multiselect caption options)
            (main file_exists csv "All" selected) ->
         ~ In "All" options).
Proof.
  split.
  - intros df output_cols. split; [ reflexivity | ].
    intros H. apply cleaned_attributes_In in H. now destruct H.
  - intros file_exists csv selected where_ caption options.
    unfold main. intros H.
    apply in_app_or in H. destruct H as [H | H].
    { simpl in H. intuition discriminate. }
    destruct file_exists; simpl in H; [ | intuition discriminate ].
    pose proof (load_data_messages csv) as M.
    destruct (load_data csv) as [messages [[df input_cols] output_cols]].
    simpl in M. apply in_app_or in H. destruct H as [H | H].
    { rewrite Forall_forall in M. apply M in H. discriminate. }
    destruct (empty df); [ simpl in H; intuition discriminate | ].
    destruct (negb _); [ simpl in H; intuition discriminate | ].
    destruct H as [H | [H | [H | H]]]; try discriminate.
    + injection H as _ _ <-. rewrite sorted_In.
      intros K. apply cleaned_attributes_In in K. now destruct K.
    + pose proof (display_merged_rules_texts
                    (secondary_filter (primary_filter df "All") output_cols selected)
                    input_cols output_cols) as D.
      rewrite Forall_forall in D. apply D in H. discriminate.
Qed.

Lemma all_is_never_offered_under_All_witness :
  primary_filter demo "All" = demo
  /\ ~ In "All" ["Some"; "X"].
Proof.
  destruct all_is_never_offered_under_All as [H1 H2].
  split.
  - apply (H1 demo demo_outputs).
  - apply (H2 true all_as_value [] Sidebar
              "2. (Optional) Filter by WY Output Attributes:" ["Some"; "X"]).
    vm_compute. tauto.
Defined.

(** On [all_as_value] the value ["All"] is offered under the primary
    selection ["X"] and withheld under ['All']. *)
Example all_offered_under_X_only :
  In (Sidebar, Multiselect "2. (Optional) Filter by WY Output Attributes:"
                 ["All"; "Some"])
     (main true all_as_value "X" [])
  /\ In (Sidebar, Multiselect "2. (Optional) Filter by WY Output Attributes:"
                    ["Some"; "X"])
        (main true all_as_value "All" []).
Proof. vm_compute. tauto. Qed.

Lemma get_loc_None cols c : ~ In c cols -> get_loc cols c = None.
Proof.
  induction cols as [|k cols IH]; simpl; auto.
  intros H. destruct (String.eqb_spec k c) as [-> | N].
  - elim H. now left.
  - rewrite IH; auto.
Qed.

Lemma get_loc_Some cols c i :
  get_loc cols c = Some i -> nth_error cols i = Some c /\ In c cols.
Proof.
  revert i. induction cols as [|k cols IH]; simpl; [ discriminate | ].
  intros i. destruct (String.eqb_spec k c) as [-> | N].
  - intros H. injection H as <-. simpl. auto.
  - destruct (get_loc cols c) as [j|]; [ | discriminate ].
    intros H. injection H as <-. destruct (IH j eq_refl). simpl. auto.
Qed.

(** C10.  The pivot is looked up in the header as read, before any label
    is trimmed: when a label equals ['WY event'] only after trimming,
    [load_data] reports the pivot as missing and returns the empty frame
    with no input and no output columns, and [main] halts. *)
Theorem pivot_is_looked_up_untrimmed (df : DataFrame cell) :
  ~ In "WY event" (columns df) ->
  In "WY event" (map strip (columns df)) ->
  load_data (ReadOk df) = ([(Page, Error pivot_missing)], (empty_frame, [], []))
  /\ forall selected_event selected_attributes,
       main true (ReadOk df) selected_event selected_attributes
       = [ (Sidebar, Header "Filter Rules");
           (Page, Title "📊 TagOnce Translation Rules");
           (Page, Markdown "---");
           (Page, Error pivot_missing);
           (Page, Warning cannot_proceed);
           (Page, Stop) ].
Proof.
  intros Habsent _.
  assert (load_data (ReadOk df)
          = ([(Page, Error pivot_missing)], (empty_frame, [], []))) as L.
  { unfold load_data. rewrite get_loc_None; auto.
    simpl. intros H. apply filter_In in H. now destruct H. }
  split; auto.
  intros selected_event selected_attributes.
  unfold main. rewrite L. reflexivity.
Qed.

Lemma pivot_is_looked_up_untrimmed_witness :
  load_data (ReadOk padded_pivot)
  = ([(Page, Error pivot_missing)], (empty_frame, [], [])).
Proof.
  apply (@pivot_is_looked_up_untrimmed padded_pivot).
  - simpl. intros [H | [H | [H | []]]]; discriminate.
  - vm_compute. auto.
Defined.

(* ================================================================== *)
(** * Normalization, cell by cell *)
(* ================================================================== *)

Lemma relabel_ext_in {A} (h h' : string -> A -> A) cols :
  (forall k v, In k cols -> h k v = h' k v) ->
  forall vals, relabel h cols vals = relabel h' cols vals.
Proof.
  induction cols as [|k cols IH]; intros E [|v vals]; simpl; auto.
  rewrite E by now left. f_equal. apply IH. intros; apply E; now right.
Qed.

Lemma relabel_relabel {A} (h1 h2 : string -> A -> A) cols :
  forall vals,
    relabel h1 cols (relabel h2 cols vals)
    = relabel (fun k v => h1 k (h2 k v)) cols vals.
Proof.
  induction cols as [|k cols IH]; intros [|v vals]; simpl; auto.
  now rewrite IH.
Qed.

Lemma relabel_id {A} cols : forall vals : list A, relabel (fun _ v => v) cols vals = vals.
Proof.
  induction cols as [|k cols IH]; intros [|v vals]; simpl; auto.
  now rewrite IH.
Qed.

Lemma update_relabel {A} cols c (f : A -> A) :
  forall vals,
    update cols c f vals
    = relabel (fun k v => if String.eqb k c then f v else v) cols vals.
Proof.
  induction cols as [|k cols IH]; intros [|v vals]; simpl; auto.
  now rewrite IH.
Qed.

Lemma map_cells_ext_in {A} (h h' : string -> A -> A) df :
  (forall k v, In k (columns df) -> h k v = h' k v) ->
  map_cells h df = map_cells h' df.
Proof.
  intros E. unfold map_cells. f_equal. apply map_ext. intros r.
  f_equal. now apply relabel_ext_in.
Qed.

Lemma map_cells_map_cells {A} (h1 h2 : string -> A -> A) df :
  map_cells h1 (map_cells h2 df) = map_cells (fun k v => h1 k (h2 k v)) df.
Proof.
  unfold map_cells. simpl. f_equal. rewrite map_map. apply map_ext.
  intros r. simpl. f_equal. apply relabel_relabel.
Qed.

Lemma map_cells_id {A} (df : DataFrame A) : map_cells (fun _ v => v) df = df.
Proof.
  destruct df as [cols rs]. unfold map_cells. simpl. f_equal.
  rewrite <- (map_id rs) at 2. apply map_ext. intros [n vals]. simpl.
  now rewrite relabel_id.
Qed.

Lemma assign_map_cells {A} c (f : A -> A) df :
  assign c f df = map_cells (fun k v => if String.eqb k c then f v else v) df.
Proof.
  unfold assign, map_cells. f_equal. apply map_ext. intros r.
  f_equal. apply update_relabel.
Qed.

Lemma replace_tilde_app s1 s2 :
  replace_tilde (s1 ++ s2) = replace_tilde s1 ++ replace_tilde s2.
Proof.
  induction s1 as [|c s1 IH]; simpl; auto.
  rewrite IH. now destruct (Ascii.eqb c "~").
Qed.

(** A rewritten string has no [~] left, so rewriting it again changes
    nothing. *)
Lemma replace_tilde_idempotent s : replace_tilde (replace_tilde s) = replace_tilde s.
Proof.
  induction s as [|c s IH]; simpl; auto.
  destruct (Ascii.eqb c "~") eqn:E.
  - simpl. now rewrite IH.
  - simpl. now rewrite E, IH.
Qed.

Lemma negation_to_NOT_idempotent v :
  negation_to_NOT (negation_to_NOT v) = negation_to_NOT v.
Proof. unfold negation_to_NOT. simpl. now rewrite replace_tilde_idempotent. Qed.

Lemma norm_cell_idempotent input_cols output_cols k v :
  norm_cell input_cols output_cols k (norm_cell input_cols output_cols k v)
  = norm_cell input_cols output_cols k v.
Proof.
  unfold norm_cell.
  destruct (mem k input_cols), (mem k output_cols); auto.
  - unfold astype_str, negation_to_NOT. simpl.
    now rewrite replace_tilde_idempotent.
  - apply negation_to_NOT_idempotent.
Qed.

Lemma fold_left_raised input_cols :
  fold_left
    (fun (acc : option (DataFrame cell)) col =>
       match acc with
       | None => None
       | Some d =>
           if mem col (columns d) then
             if Nat.eqb (occurrences (columns d) col) 1
             then Some (assign col negation_to_NOT d)
             else None
           else Some d
       end)
    input_cols None = None.
Proof. induction input_cols; simpl; auto. Qed.

(** The loop over the input columns, in closed form. *)
Lemma normalize_inputs_spec input_cols :
  forall df,
    normalize_inputs input_cols df
    = if inputs_ok (columns df) input_cols
      then Some (map_cells
                   (fun k v => if mem k input_cols then negation_to_NOT v else v) df)
      else None.
Proof.
  unfold normalize_inputs.
  induction input_cols as [|c l IH]; intros df.
  - simpl. now rewrite map_cells_id.
  - cbn [fold_left inputs_ok forallb].
    destruct (mem c (columns df)) eqn:M; cbn [negb orb].
    + destruct (Nat.eqb (occurrences (columns df) c) 1); cbn [andb].
      * rewrite IH. simpl columns.
        change (forallb _ l) with (inputs_ok (columns df) l).
        destruct (inputs_ok (columns df) l); auto.
        f_equal. rewrite assign_map_cells, map_cells_map_cells.
        apply map_cells_ext_in. intros k v _. simpl.
        destruct (String.eqb k c), (mem k l); simpl; auto.
        apply negation_to_NOT_idempotent.
      * apply fold_left_raised.
    + cbn [andb]. rewrite IH.
      change (forallb _ l) with (inputs_ok (columns df) l).
      destruct (inputs_ok (columns df) l); auto.
      f_equal. apply map_cells_ext_in. intros k v Hk. simpl.
      destruct (String.eqb_spec k c) as [-> | N]; auto.
      apply mem_In in Hk. congruence.
Qed.

(** The loop over the output columns, in closed form. *)
Lemma normalize_outputs_spec output_cols :
  forall df,
    normalize_outputs output_cols df
    = map_cells (fun k v => if mem k output_cols then astype_str v else v) df.
Proof.
  unfold normalize_outputs.
  induction output_cols as [|c l IH]; intros df.
  - simpl. now rewrite map_cells_id.
  - cbn [fold_left]. destruct (mem c (columns df)) eqn:M.
    + rewrite IH, assign_map_cells, map_cells_map_cells.
      apply map_cells_ext_in. intros k v _. simpl.
      destruct (String.eqb k c), (mem k l); simpl; auto.
    + rewrite IH. apply map_cells_ext_in. intros k v Hk. simpl.
      destruct (String.eqb_spec k c) as [-> | N]; auto.
      apply mem_In in Hk. congruence.
Qed.

Lemma normalize_spec input_cols output_cols df :
  normalize input_cols output_cols df
  = if inputs_ok (columns df) input_cols
    then Some (map_cells (norm_cell input_cols output_cols) df)
    else None.
Proof.
  unfold normalize. rewrite normalize_inputs_spec.
  destruct (inputs_ok (columns df) input_cols); auto.
  now rewrite normalize_outputs_spec, map_cells_map_cells.
Qed.

(** C7.  Normalization is idempotent: applied to a table it has already
    produced (every cell turned into its string, every [~] of an input
    cell rewritten to [NOT]) it returns that table unchanged; a rewritten
    cell is not rewritten a second time. *)
Theorem normalize_idempotent
    (input_cols output_cols : list string) (df normalized : DataFrame cell) :
  normalize input_cols output_cols df = Some normalized ->
  normalize input_cols output_cols normalized = Some normalized
  /\ forall s, replace_tilde (replace_tilde s) = replace_tilde s.
Proof.
  intros H. split; [ | apply replace_tilde_idempotent ].
  rewrite normalize_spec in H.
  destruct (inputs_ok (columns df) input_cols) eqn:Ok; [ | discriminate ].
  injection H as <-.
  rewrite normalize_spec. simpl columns. rewrite Ok. f_equal.
  rewrite map_cells_map_cells. apply map_cells_ext_in.
  intros k v _. apply norm_cell_idempotent.
Qed.

Lemma normalize_idempotent_witness :
  normalize ["Level"; "A"] ["WY event"] normalized_demo = Some normalized_demo
  /\ forall s, replace_tilde (replace_tilde s) = replace_tilde s.
Proof.
  apply (@normalize_idempotent ["Level"; "A"] ["WY event"] raw_demo normalized_demo).
  reflexivity.
Defined.

(* ================================================================== *)
(** * What a successful load guarantees *)
(* ================================================================== *)

Lemma relabel_all_str (h : string -> cell -> cell) cols :
  (forall k v, In k cols -> is_str (h k v)) ->
  forall vals,
    List.length vals = List.length cols -> Forall is_str (relabel h cols vals).
Proof.
  induction cols as [|k cols IH]; intros H [|v vals]; simpl; try discriminate.
  - constructor.
  - intros L. injection L as L. constructor.
    + apply H. now left.
    + apply IH; auto. intros; apply H; now right.
Qed.

(** When every column is an input or an output column, normalization
    leaves only [str] cells, which [texts] reads off unchanged. *)
Lemma normalize_all_str input_cols output_cols df normalized :
  normalize input_cols output_cols df = Some normalized ->
  (forall k, In k (columns df) -> In k input_cols \/ In k output_cols) ->
  rectangular df = true ->
  forall r, In r (rows normalized) -> Forall is_str (cells r).
Proof.
  rewrite normalize_spec.
  destruct (inputs_ok (columns df) input_cols); [ | discriminate ].
  intros H Hcover R r Hr. injection H as <-.
  unfold map_cells in Hr. simpl in Hr. apply in_map_iff in Hr.
  destruct Hr as [r0 [<- Hr0]]. simpl.
  apply relabel_all_str; [ | now apply rectangular_row ].
  intros k v Hk. unfold norm_cell, is_str, astype_str, negation_to_NOT.
  destruct (Hcover k Hk) as [Hi | Ho].
  - apply mem_In in Hi. rewrite Hi. destruct (mem k output_cols); eauto.
  - apply mem_In in Ho. rewrite Ho. eauto.
Qed.

Lemma texts_of_str (r : Row cell) :
  Forall is_str (cells r) -> map CStr (map str (cells r)) = cells r.
Proof.
  induction 1 as [|v l [s ->] _ IH]; simpl; auto. now rewrite IH.
Qed.

Lemma keep_length {A} cols drop :
  forall vals : list A,
    List.length vals = List.length cols ->
    List.length (keep cols drop vals)
    = List.length (filter (fun k => negb (mem k drop)) cols).
Proof.
  induction cols as [|k cols IH]; intros [|v vals]; simpl; try discriminate; auto.
  intros L. injection L as L. destruct (mem k drop); simpl; auto.
Qed.

Lemma drop_columns_rectangular {A} drop (df : DataFrame A) :
  rectangular df = true -> rectangular (drop_columns drop df) = true.
Proof.
  unfold rectangular, drop_columns. simpl. rewrite !forallb_forall.
  intros R r Hr. apply in_map_iff in Hr. destruct Hr as [r0 [<- Hr0]]. simpl.
  apply Nat.eqb_eq, keep_length. now apply Nat.eqb_eq, R.
Qed.

Lemma get_loc_skipn cols c i :
  get_loc cols c = Some i -> skipn i cols = c :: skipn (S i) cols.
Proof.
  revert i. induction cols as [|k cols IH]; simpl; [ discriminate | ].
  intros i. destruct (String.eqb_spec k c) as [-> | N].
  - intros H. now injection H as <-.
  - destruct (get_loc cols c) as [j|]; [ | discriminate ].
    intros H. injection H as <-. now apply IH.
Qed.

Lemma normalize_columns input_cols output_cols df normalized :
  normalize input_cols output_cols df = Some normalized ->
  columns normalized = columns df.
Proof.
  rewrite normalize_spec.
  destruct (inputs_ok (columns df) input_cols); [ | discriminate ].
  intros H. now injection H as <-.
Qed.

(** After a successful load the header is the input columns followed by
    the output columns, and the first output column is the pivot: every
    label the program looks up afterwards is in the header. *)
Lemma load_data_schema csv df input_cols output_cols :
  load_data csv = ([], (df, input_cols, output_cols)) ->
  columns df = (input_cols ++ output_cols)%list
  /\ exists others, output_cols = "WY event" :: others.
Proof.
  unfold load_data. destruct csv as [msg | raw]; [ discriminate | ].
  destruct (get_loc _ _) as [i|] eqn:G; [ | discriminate ].
  destruct (normalize _ _ _) as [d|] eqn:N; [ | discriminate ].
  intros H. injection H as <- <- <-.
  apply normalize_columns in N. simpl in *. rewrite N. split.
  - rewrite <- map_app. now rewrite firstn_skipn.
  - rewrite (get_loc_skipn _ _ G). simpl map. eauto.
Qed.

(** A frame that loads from a rectangular table is the text of a frame
    whose cells are all [str] objects. *)
Lemma load_data_all_str raw df input_cols output_cols :
  load_data (ReadOk raw) = ([], (df, input_cols, output_cols)) ->
  rectangular raw = true ->
  exists normalized,
    df = texts normalized
    /\ forall r, In r (rows normalized) -> Forall is_str (cells r).
Proof.
  unfold load_data.
  destruct (get_loc _ _) as [i|] eqn:G; [ | discriminate ].
  destruct (normalize _ _ _) as [d|] eqn:N; [ | discriminate ].
  intros H R. injection H as <- <- <-.
  exists d. split; auto.
  apply (normalize_all_str _ _ _ N).
  - cbn [columns]. intros k Hk. apply in_app_or.
    rewrite <- map_app. now rewrite firstn_skipn.
  - apply (drop_columns_rectangular cols_to_drop) in R.
    unfold rectangular in *. simpl. now rewrite length_map.
Qed.

(* ================================================================== *)
(** * Merged rules of a run *)
(* ================================================================== *)

(** C3, as stated, fails.  On the table as written the pivot ['WY event']
    is missing, so nothing is loaded and no rule is shown; with the last
    column named ['WY event'] the one rule shown does not have the input
    side [{A: ["NOT p", "q"]}]. *)
Lemma example_as_stated_fails :
  merged_rules example_table "All" [] = []
  /\ main true example_table "All" []
     = (chrome ++ [ (Page, Error pivot_missing);
                    (Page, Warning cannot_proceed);
                    (Page, Stop) ])%list
  /\ map inputs_shown (merged_rules example_table_pivoted "All" [])
     <> [ [("A", ["NOT p"; "q"])] ]
  /\ replace_tilde "~p" <> "NOT p".
Proof.
  repeat split; try reflexivity; vm_compute; discriminate.
Qed.

(** C3, amended.  With the pivot column named ['WY event'], the table of
    the example gives exactly one merged rule: its output side is
    [{WY event: "Y"}]; its input side is [{Event: ["X"], A: ["NOTp", "q"]}],
    the values sorted, [~] rewritten to [NOT] with nothing inserted after
    it, [Event] an input column because it stands before the pivot, and
    [B] absent. *)
Theorem example_gives_one_rule :
  merged_rules example_table_pivoted "All" []
  = [ mkRule [("Event", ["X"]); ("A", ["NOTp"; "q"])] [("WY event", "Y")] 2 ]
  /\ main true example_table_pivoted "All" []
     = (chrome
        ++ [ (Sidebar, Selectbox "1. Select a 'WY event':" ["All"; "Y"]);
             (Sidebar, Multiselect "2. (Optional) Filter by WY Output Attributes:" ["Y"]);
             (Page, Header "🔍 Visualizing Rules for: `All`");
             (Page, Subheader "Found 1 Unique Output Rule(s)");
             (Page, Markdown "---");
             (Page, Markdown "#### Rule #1");
             (Column 0, Info "**SB Input Conditions (Source)**" "📥");
             (Column 0, Markdown "**Event:** `X`");
             (Column 0, Markdown "**A:** `NOTp / q`");
             (Column 1, Success "**WY Output (Destination)**" "📤");
             (Column 1, Markdown "**WY event:** `Y`") ])%list.
Proof. split; reflexivity. Qed.

(* ================================================================== *)
(** * No matches, and the fatal halts *)
(* ================================================================== *)

(** C5, as stated, fails.  A file that loads with zero rows is not shown
    as "no matches": the page halts with the same warning as after a
    failed load. *)
Lemma zero_rows_is_a_halt :
  load_data header_only = ([], (mkDF ["A"; "WY event"; "Out"] [], ["A"], ["WY event"; "Out"]))
  /\ main true header_only "All" []
     = (chrome ++ [ (Page, Warning cannot_proceed); (Page, Stop) ])%list
  /\ ~ no_matches (main true header_only "All" [])
  /\ halted (main true header_only "All" []).
Proof.
  repeat split; try reflexivity.
  - vm_compute. intuition discriminate.
  - vm_compute. tauto.
Qed.

Lemma load_data_outcome csv :
  fst (load_data csv) = []
  \/ exists message, load_data csv = ([(Page, Error message)], load_failed).
Proof.
  unfold load_data. destruct csv as [msg | raw]; [ right; eauto | ].
  destruct (get_loc _ _); [ | right; eauto ].
  destruct (normalize _ _ _); [ now left | right; eauto ].
Qed.

Lemma display_nothing df input_cols output_cols :
  rows df = [] ->
  display_merged_rules df input_cols output_cols = [ (Page, Warning no_rules) ].
Proof. intros H. unfold display_merged_rules, empty. now rewrite H. Qed.

Lemma main_without_rows csv df input_cols output_cols selected_event selected :
  load_data csv = ([], (df, input_cols, output_cols)) ->
  empty df = false ->
  occurrences (columns df) "WY event" = 1 ->
  rows (secondary_filter (primary_filter df selected_event) output_cols selected)
  = [] ->
  main true csv selected_event selected
  = (chrome
     ++ [ (Sidebar, Selectbox "1. Select a 'WY event':"
                      ("All" :: sorted (unique_str (column_values df "WY event"))));
          (Sidebar, Multiselect "2. (Optional) Filter by WY Output Attributes:"
                      (sorted (cleaned_attributes
                                 (primary_filter df selected_event)
                                 output_cols selected_event)));
          (Page, Header ("🔍 Visualizing Rules for: `" ++ selected_event ++ "`"));
          (Page, Warning no_rules) ])%list.
Proof.
  intros L Hne Hocc Hzero. unfold main. rewrite L. cbn [negb app].
  rewrite Hne, Hocc. cbn [Nat.eqb negb]. now rewrite display_nothing.
Qed.

(** A table whose trimmed header has the pivot label twice loads without
    a message; [df['WY event']] is then a frame, and the page ends with
    the uncaught exception instead of a warning. *)
Example repeated_pivot_label_is_uncaught :
  fst (load_data (ReadOk (mkDF ["A"; "WY event"; " WY event"]
                               [ mkRow 0 [CStr "p"; CStr "X"; CStr "Y"] ]))) = []
  /\ main true (ReadOk (mkDF ["A"; "WY event"; " WY event"]
                            [ mkRow 0 [CStr "p"; CStr "X"; CStr "Y"] ]))
           "All" ["Q"]
     = (chrome ++ [ (Page, Uncaught "AttributeError") ])%list.
Proof. split; reflexivity. Qed.

(** C5, amended.  On a loaded table with a row, in whose trimmed header
    the label ['WY event'] occurs once, a selection that matches no row is
    not an error: the page is the title, the two filter widgets, the page
    header and the warning "No rules found for the selected criteria.",
    with no error message, no halt and no rule or table drawn.  The fatal
    cases report an error and halt with nothing else drawn: a missing data
    file, and a failed load (as when the pivot is missing), which returns
    the empty frame and no columns, never a table in its place.  A file
    that loads with zero rows halts too, with the warning that the data
    could not be loaded or the file is empty, and without an error
    message. *)
Theorem no_matches_is_not_a_halt :
  (forall csv df input_cols output_cols selected_event selected_attributes,
      load_data csv = ([], (df, input_cols, output_cols)) ->
      empty df = false ->
      occurrences (columns df) "WY event" = 1 ->
      rows (secondary_filter (primary_filter df selected_event)
                             output_cols selected_attributes) = [] ->
      main true csv selected_event selected_attributes
      = (chrome
         ++ [ (Sidebar, Selectbox "1. Select a 'WY event':"
                          ("All" :: sorted (unique_str (column_values df "WY event"))));
              (Sidebar, Multiselect "2. (Optional) Filter by WY Output Attributes:"
                          (sorted (cleaned_attributes
                                     (primary_filter df selected_event)
                                     output_cols selected_event)));
              (Page, Header ("🔍 Visualizing Rules for: `" ++ selected_event ++ "`"));
              (Page, Warning no_rules) ])%list
      /\ no_matches (main true csv selected_event selected_attributes)
      /\ ~ halted (main true csv selected_event selected_attributes)
      /\ ~ reports_error (main true csv selected_event selected_attributes))
  /\ (forall csv selected_event selected_attributes,
         main false csv selected_event selected_attributes
         = (chrome
            ++ [ (Page, Error "FATAL ERROR: The data file 'translation_rules.csv' was not found.");
                 (Page, Info "Please make sure the file is in the same folder as this script and has the correct name." "");
                 (Page, Stop) ])%list)
  /\ (forall csv message selected_event selected_attributes,
         load_data csv = ([(Page, Error message)], load_failed) ->
         main true csv selected_event selected_attributes
         = (chrome ++ [ (Page, Error message);
                        (Page, Warning cannot_proceed);
                        (Page, Stop) ])%list)
  /\ (forall csv,
         fst (load_data csv) = []
         \/ exists message, load_data csv = ([(Page, Error message)], load_failed))
  /\ (forall csv df input_cols output_cols selected_event selected_attributes,
         load_data csv = ([], (df, input_cols, output_cols)) ->
         rows df = [] ->
         main true csv selected_event selected_attributes
         = (chrome ++ [ (Page, Warning cannot_proceed); (Page, Stop) ])%list).
Proof.
  split; [ | split; [ | split; [ | split ] ] ].
  - intros csv df input_cols output_cols selected_event selected_attributes
           L Hne Hocc Hzero.
    rewrite (main_without_rows csv selected_event selected_attributes
               L Hne Hocc Hzero).
    split; [ reflexivity | ].
    unfold no_matches, halted, reports_error. simpl.
    repeat split.
    + tauto.
    + intuition discriminate.
    + intros [message H]. intuition discriminate.
  - reflexivity.
  - intros csv message selected_event selected_attributes L.
    unfold main. rewrite L. reflexivity.
  - apply load_data_outcome.
  - intros csv df input_cols output_cols selected_event selected_attributes L Hzero.
    unfold main. rewrite L. cbn [negb app]. unfold empty. now rewrite Hzero.
Qed.

Lemma no_matches_is_not_a_halt_witness :
  no_matches (main true apart_raw "X" ["Y"; "Z"])
  /\ ~ halted (main true apart_raw "X" ["Y"; "Z"])
  /\ ~ reports_error (main true apart_raw "X" ["Y"; "Z"]).
Proof.
  destruct no_matches_is_not_a_halt as [H _].
  apply (H apart_raw
           (mkDF ["A"; "WY event"; "Out"]
                 [ mkRow 0 ["p"; "X"; "Y"]; mkRow 1 ["q"; "X"; "Z"] ])
           ["A"] ["WY event"; "Out"] "X" ["Y"; "Z"]).
  - reflexivity.
  - reflexivity.
  - reflexivity.
  - reflexivity.
Defined.

(* ================================================================== *)
(** * More on [load_data] *)
(* ================================================================== *)

Lemma select_map {A B} (f : A -> B) cols k :
  forall vals, select cols (map f vals) k = map f (select cols vals k).
Proof.
  induction cols as [|c cols IH]; intros [|v vals]; simpl; auto.
  destruct (String.eqb c k); simpl; now rewrite IH.
Qed.

Lemma select_relabel {A} (h : string -> A -> A) cols k :
  forall vals, select cols (relabel h cols vals) k = map (h k) (select cols vals k).
Proof.
  induction cols as [|c cols IH]; intros [|v vals]; simpl; auto.
  destruct (String.eqb_spec c k) as [-> | N]; simpl; now rewrite IH.
Qed.

Lemma relabel_length {A} (h : string -> A -> A) cols :
  forall vals, List.length (relabel h cols vals) = List.length vals.
Proof.
  induction cols as [|c cols IH]; intros [|v vals]; simpl; auto.
Qed.

Lemma select_nil {A} cols k : select cols (@nil A) k = [].
Proof. now destruct cols. Qed.

(** Dropping columns leaves the cells under every other label where they
    were. *)
Lemma select_keep {A} cols drop k :
  forall vals : list A,
    select (filter (fun c => negb (mem c drop)) cols) (keep cols drop vals) k
    = if mem k drop then [] else select cols vals k.
Proof.
  induction cols as [|c cols IH]; intros [|v vals];
    try (simpl; rewrite ?select_nil; now destruct (mem k drop)).
  simpl. destruct (mem c drop) eqn:Mc; simpl.
  - rewrite IH. destruct (String.eqb_spec c k) as [-> | N]; auto.
    now rewrite Mc.
  - rewrite IH. destruct (String.eqb_spec c k) as [-> | N]; auto.
    now rewrite Mc.
Qed.

(** What a load without messages has computed. *)
Lemma load_data_success raw df input_cols output_cols :
  load_data (ReadOk raw) = ([], (df, input_cols, output_cols)) ->
  exists i,
    get_loc (columns (drop_columns cols_to_drop raw)) "WY event" = Some i
    /\ input_cols = map strip (firstn i (columns (drop_columns cols_to_drop raw)))
    /\ output_cols = map strip (skipn i (columns (drop_columns cols_to_drop raw)))
    /\ inputs_ok (columns (trimmed raw)) input_cols = true
    /\ df = texts (map_cells (norm_cell input_cols output_cols) (trimmed raw)).
Proof.
  unfold load_data. fold (trimmed raw).
  destruct (get_loc _ _) as [i|] eqn:G; [ | discriminate ].
  rewrite normalize_spec.
  destruct (inputs_ok _ _) eqn:Ok; [ | discriminate ].
  intros H. injection H as <- <- <-. exists i. auto.
Qed.

Lemma load_data_header raw df input_cols output_cols :
  load_data (ReadOk raw) = ([], (df, input_cols, output_cols)) ->
  columns df = (input_cols ++ output_cols)%list
  /\ columns (trimmed raw) = columns df.
Proof.
  intros H. destruct (load_data_success _ H) as [i [_ [-> [-> [_ ->]]]]].
  simpl. rewrite <- map_app, firstn_skipn. auto.
Qed.

Lemma input_labels_once raw df input_cols output_cols :
  load_data (ReadOk raw) = ([], (df, input_cols, output_cols)) ->
  forall k, In k input_cols ->
    count_occ string_dec input_cols k = 1
    /\ count_occ string_dec output_cols k = 0.
Proof.
  intros H.
  destruct (load_data_header _ H) as [Hcols Htrim].
  destruct (load_data_success _ H) as [i [_ [_ [_ [Ok _]]]]].
  intros k Hk. unfold inputs_ok in Ok. rewrite forallb_forall in Ok.
  specialize (Ok k Hk). rewrite Htrim, Hcols in Ok.
  assert (mem k (input_cols ++ output_cols) = true) as M
      by (apply mem_In, in_or_app; now left).
  rewrite M in Ok. simpl in Ok. apply Nat.eqb_eq in Ok.
  unfold occurrences in Ok. rewrite count_occ_app in Ok.
  apply (count_occ_In string_dec) in Hk. lia.
Qed.

(** X1.  After a load without messages the header is the input columns
    followed by the output columns, the first output column is the pivot,
    the input labels are pairwise distinct, and no input label is also an
    output label. *)
Theorem loaded_schema (raw : DataFrame cell) (df : DataFrame string)
    (input_cols output_cols : list string) :
  load_data (ReadOk raw) = ([], (df, input_cols, output_cols)) ->
  columns df = (input_cols ++ output_cols)%list
  /\ (exists others, output_cols = "WY event" :: others)
  /\ NoDup input_cols
  /\ (forall k, In k input_cols -> ~ In k output_cols).
Proof.
  intros H.
  destruct (load_data_header _ H) as [Hcols Htrim].
  destruct (load_data_success _ H) as [i [G [Hi [Ho [Ok _]]]]].
  pose proof (input_labels_once _ H) as Hcount.
  split; [ exact Hcols | split; [ | split ] ].
  - rewrite Ho, (get_loc_skipn _ _ G). simpl map. eauto.
  - apply (NoDup_count_occ string_dec). intros k.
    destruct (in_dec string_dec k input_cols) as [Hk | Hk].
    + destruct (Hcount k Hk) as [-> _]. auto.
    + apply (count_occ_not_In string_dec) in Hk. rewrite Hk. auto.
  - intros k Hk. destruct (Hcount k Hk) as [_ Hz].
    now apply (count_occ_not_In string_dec).
Qed.

Lemma loaded_schema_witness :
  columns loaded_wide = (["A"; "B"] ++ ["WY event"; "Out"])%list
  /\ (exists others, ["WY event"; "Out"] = "WY event" :: others)
  /\ NoDup ["A"; "B"]
  /\ (forall k, In k ["A"; "B"] -> ~ In k ["WY event"; "Out"]).
Proof.
  apply (@loaded_schema raw_wide loaded_wide ["A"; "B"] ["WY event"; "Out"]).
  reflexivity.
Defined.

(** X2.  Loading drops no row and renumbers none: the loaded frame has
    the index labels of the table as read, in the same order, and it is
    rectangular when that table is. *)
Theorem load_keeps_the_rows (raw : DataFrame cell) (df : DataFrame string)
    (input_cols output_cols : list string) :
  load_data (ReadOk raw) = ([], (df, input_cols, output_cols)) ->
  map (@label string) (rows df) = map (@label cell) (rows raw)
  /\ (rectangular raw = true -> rectangular df = true).
Proof.
  intros H. destruct (load_data_success _ H) as [i [_ [_ [_ [_ ->]]]]].
  split.
  - unfold texts, map_cells, trimmed, drop_columns. simpl.
    rewrite !map_map. apply map_ext. reflexivity.
  - intros R. apply (drop_columns_rectangular cols_to_drop) in R.
    unfold rectangular in *. rewrite forallb_forall in *.
    unfold texts, map_cells, trimmed. cbn [columns rows].
    intros r Hr. rewrite !map_map in Hr. apply in_map_iff in Hr.
    destruct Hr as [r0 [<- Hr0]]. cbn [cells].
    rewrite !length_map, relabel_length. now apply R.
Qed.

Lemma load_keeps_the_rows_witness :
  map (@label string) (rows loaded_wide) = map (@label cell) (rows raw_wide)
  /\ (rectangular raw_wide = true -> rectangular loaded_wide = true).
Proof.
  apply (@load_keeps_the_rows raw_wide loaded_wide ["A"; "B"] ["WY event"; "Out"]).
  reflexivity.
Defined.

Lemma loaded_column raw df input_cols output_cols k :
  load_data (ReadOk raw) = ([], (df, input_cols, output_cols)) ->
  column_values df k
  = map (fun v => str (norm_cell input_cols output_cols k v))
        (column_cells (trimmed raw) k).
Proof.
  intros H. destruct (load_data_success _ H) as [i [_ [_ [_ [_ ->]]]]].
  unfold column_values, column_cells, texts, map_cells. cbn [columns rows].
  rewrite !flat_map_concat_map, !map_map, concat_map, map_map.
  f_equal. apply map_ext. intros r. cbn [cells].
  now rewrite select_map, select_relabel, map_map.
Qed.

(** X3.  What loading does to a column: under an input label every cell
    becomes its string with each [~] rewritten to [NOT]; under an output
    label every cell becomes its string and nothing else, a [~] in it
    stays. *)
Theorem load_rewrites_input_columns_only (raw : DataFrame cell)
    (df : DataFrame string) (input_cols output_cols : list string) :
  load_data (ReadOk raw) = ([], (df, input_cols, output_cols)) ->
  (forall k, In k input_cols ->
     column_values df k
     = map (fun v => replace_tilde (str v)) (column_cells (trimmed raw) k))
  /\ (forall k, In k output_cols ->
        column_values df k = map str (column_cells (trimmed raw) k)).
Proof.
  intros H.
  assert (forall k, In k input_cols -> ~ In k output_cols) as D.
  { intros k Hk. destruct (input_labels_once _ H k Hk) as [_ Hz].
    now apply (count_occ_not_In string_dec). }
  split; intros k Hk; rewrite (loaded_column _ k H); apply map_ext; intros v;
    unfold norm_cell.
  - assert (mem k input_cols = true) as -> by now apply mem_In.
    destruct (mem k output_cols); reflexivity.
  - assert (mem k output_cols = true) as -> by now apply mem_In.
    destruct (mem k input_cols) eqn:M; [ | reflexivity ].
    apply mem_In in M. elim (D k M Hk).
Qed.

Lemma load_rewrites_input_columns_only_witness :
  column_values loaded_wide "A" = ["NOTp"; "q"]
  /\ column_values loaded_wide "Out" = ["~y"; ""].
Proof.
  destruct (@load_rewrites_input_columns_only raw_wide loaded_wide
              ["A"; "B"] ["WY event"; "Out"] eq_refl) as [Hin Hout].
  split.
  - rewrite (Hin "A"); [ reflexivity | simpl; auto ].
  - rewrite (Hout "Out"); [ reflexivity | simpl; auto ].
Defined.

Lemma contains_tilde_replace s : contains_tilde (replace_tilde s) = false.
Proof.
  unfold contains_tilde. induction s as [|c s IH]; [ reflexivity | ].
  cbn [replace_tilde]. destruct (Ascii.eqb c "~") eqn:E.
  - simpl. exact IH.
  - cbn [list_ascii_of_string existsb]. rewrite Ascii.eqb_sym, E. exact IH.
Qed.

(** X4.  After a load without messages no cell of an input column has a
    [~] left. *)
Theorem no_tilde_in_input_columns (raw : DataFrame cell) (df : DataFrame string)
    (input_cols output_cols : list string) :
  load_data (ReadOk raw) = ([], (df, input_cols, output_cols)) ->
  forall k v, In k input_cols -> In v (column_values df k) ->
              contains_tilde v = false.
Proof.
  intros H k v Hk Hv.
  rewrite (loaded_column _ k H) in Hv. apply in_map_iff in Hv.
  destruct Hv as [c [<- _]]. unfold norm_cell.
  assert (mem k input_cols = true) as -> by now apply mem_In.
  destruct (mem k output_cols); apply contains_tilde_replace.
Qed.

Lemma no_tilde_in_input_columns_witness : contains_tilde "NOTp" = false.
Proof.
  apply (@no_tilde_in_input_columns raw_wide loaded_wide
           ["A"; "B"] ["WY event"; "Out"] eq_refl "A" "NOTp").
  - simpl. auto.
  - simpl. auto.
Defined.

Lemma get_loc_In cols c : In c cols -> exists i, get_loc cols c = Some i.
Proof.
  intros H. destruct (get_loc cols c) as [i|] eqn:G; eauto.
  exfalso. revert H G. induction cols as [|k cols IH]; simpl; auto.
  destruct (String.eqb_spec k c) as [-> | N]; [ discriminate | ].
  intros [E | Hin]; [ congruence | ].
  destruct (get_loc cols c); [ discriminate | auto ].
Qed.

(** X5.  [load_data] reports the pivot as missing exactly when no label
    of the header as read is ['WY event']: a label that is there is found
    wherever it stands, also next to the optional columns that are
    dropped. *)
Theorem pivot_missing_iff_absent (raw : DataFrame cell) :
  load_data (ReadOk raw) = ([(Page, Error pivot_missing)], load_failed)
  <-> ~ In "WY event" (columns raw).
Proof.
  split.
  - intros L Hin.
    assert (In "WY event" (columns (drop_columns cols_to_drop raw))) as Hin'
        by (simpl; apply filter_In; split; [ exact Hin | reflexivity ]).
    apply get_loc_In in Hin'. destruct Hin' as [i G].
    unfold load_data in L. rewrite G in L.
    destruct (normalize _ _ _); [ discriminate | ].
    injection L as L. vm_compute in L. discriminate.
  - intros Habsent. unfold load_data. rewrite get_loc_None; auto.
    simpl. intros H. apply filter_In in H. now destruct H.
Qed.

(* ================================================================== *)
(** * More on [display_merged_rules] *)
(* ================================================================== *)




Lemma flat_map_singletons {A B} (f : A -> list B) l :
  (forall c, In c l -> List.length (f c) = 1) ->
  List.length (flat_map f l) = List.length l.
Proof.
  induction l as [|x l IH]; simpl; intros H; auto.
  rewrite length_app, H, IH; auto.
Qed.

(** X7.  Every group carries the header of the table; its key has one
    value per output column, so that pairing the output columns with the
    key leaves none out; and every member row has exactly the key as its
    output values. *)
Theorem group_members_carry_the_key
    (df : DataFrame string) (output_cols : list string) (grouped : list Group) :
  groupby df output_cols = Some grouped ->
  rectangular df = true ->
  forall g, In g grouped ->
    columns (group g) = columns df
    /\ List.length (output_values g) = List.length output_cols
    /\ (forall r, In r (rows (group g)) ->
          row_values (columns df) r output_cols = output_values g).
Proof.
  intros G R g Hg.
  destruct (groupby_Some _ _ G) as [_ [Hocc _]].
  apply (groupby_In _ _ g G) in Hg. destruct Hg as [Hk Hg].
  rewrite Hg. split; [ reflexivity | split ].
  - apply group_keys_In in Hk. destruct Hk as [r [Hr <-]].
    unfold row_key, row_values. apply flat_map_singletons.
    intros c Hc. rewrite select_length; auto using rectangular_row.
  - intros r Hr. apply members_In in Hr. now destruct Hr.
Qed.

Lemma group_members_carry_the_key_witness :
  columns (group (mkGroup ["X"; "Y"] (members demo demo_outputs ["X"; "Y"])))
  = columns demo
  /\ List.length ["X"; "Y"] = List.length demo_outputs
  /\ (forall r, In r (rows (members demo demo_outputs ["X"; "Y"])) ->
        row_values (columns demo) r demo_outputs = ["X"; "Y"]).
Proof.
  apply (@group_members_carry_the_key demo demo_outputs demo_groups
           eq_refl eq_refl
           (mkGroup ["X"; "Y"] (members demo demo_outputs ["X"; "Y"]))).
  vm_compute. tauto.
Defined.

Lemma strictly_sorted l :
  NoDup l -> StronglySorted str_lt (sorted l).
Proof.
  intros Hnd.
  assert (StronglySorted (fun s1 s2 => String.leb s1 s2 = true) (sorted l)) as S
      by (apply sort_by_ascending;
          [ apply String.leb_total | apply string_leb_trans ]).
  assert (NoDup (sorted l)) as N by now apply sort_by_NoDup.
  induction S as [|s l' Hs IH Hall]; constructor.
  - apply IH. now inversion N.
  - inversion N as [|? ? Hnot _]; subst.
    rewrite Forall_forall in *. intros s' Hs'.
    apply (leb_of_neq_lt string_ordering).
    + rewrite <- string_leb_of. now apply Hall.
    + intros ->. contradiction.
Qed.

Lemma shown_true v : shown v = true <-> strip v <> "" /\ strip v <> "NOT".
Proof.
  unfold shown. rewrite andb_true_iff, !negb_true_iff, !String.eqb_neq. tauto.
Qed.

Lemma cleaned_vals_In g col v :
  In v (cleaned_vals g col)
  <-> In v (column_values g col) /\ strip v <> "" /\ strip v <> "NOT".
Proof.
  unfold cleaned_vals, unique_str.
  now rewrite filter_In, unique_In, shown_true.
Qed.

Lemma input_display_In g input_cols col vals :
  In (col, vals) (input_display g input_cols)
  <-> In col input_cols
      /\ cleaned_vals g col <> []
      /\ vals = sorted (cleaned_vals g col).
Proof.
  unfold input_display. rewrite in_flat_map. split.
  - intros [c [Hc Hin]]. destruct (cleaned_vals g c) as [|v l] eqn:E.
    + contradiction.
    + destruct Hin as [Hin | []]. injection Hin as <- <-.
      rewrite E. repeat split; auto. discriminate.
  - intros [Hc [Hne ->]]. exists col. split; auto.
    destruct (cleaned_vals g col); [ congruence | now left ].
Qed.

(** X8.  What a rule lists for an input column is never empty, strictly
    ascending (so without repetition), and holds exactly the values of the
    member rows under that column that are not blank and not [NOT] once
    trimmed. *)
Theorem input_side_lists_the_member_values
    (g : DataFrame string) (input_cols : list string)
    (col : string) (vals : list string) :
  In (col, vals) (input_display g input_cols) ->
  vals <> []
  /\ StronglySorted str_lt vals
  /\ (forall v, In v vals
                <-> In v (column_values g col)
                    /\ strip v <> "" /\ strip v <> "NOT").
Proof.
  intros H. apply input_display_In in H. destruct H as [_ [Hne ->]].
  split; [ | split ].
  - intros E. apply Hne.
    assert (List.length (cleaned_vals g col) = 0) as L
        by (rewrite <- (sort_by_length String.leb); unfold sorted in E;
            now rewrite E).
    now destruct (cleaned_vals g col).
  - apply strictly_sorted. unfold cleaned_vals, unique_str.
    apply NoDup_filter, unique_NoDup.
  - intros v. rewrite sorted_In. apply cleaned_vals_In.
Qed.

Lemma input_side_lists_the_member_values_witness :
  ["NOTp"; "q"; "r"] <> []
  /\ StronglySorted str_lt ["NOTp"; "q"; "r"]
  /\ (forall v, In v ["NOTp"; "q"; "r"]
                <-> In v (column_values demo "A")
                    /\ strip v <> "" /\ strip v <> "NOT").
Proof.
  apply (@input_side_lists_the_member_values demo ["A"; "WY event"] "A").
  vm_compute. tauto.
Defined.

Lemma input_display_listed
    (g : DataFrame string) (input_cols : list string) (col : string) :
  In col (map fst (input_display g input_cols))
  <-> In col input_cols
      /\ exists v, In v (column_values g col)
                   /\ strip v <> "" /\ strip v <> "NOT".
Proof.
  rewrite in_map_iff. split.
  - intros [[c vals] [E H]]. simpl in E. subst c.
    apply input_display_In in H. destruct H as [Hc [Hne _]].
    split; auto.
    destruct (cleaned_vals g col) as [|v l] eqn:Ev; [ congruence | ].
    exists v. apply cleaned_vals_In. rewrite Ev. now left.
  - intros [Hc [v Hv]]. exists (col, sorted (cleaned_vals g col)).
    split; auto. apply input_display_In. repeat split; auto.
    apply cleaned_vals_In in Hv. intros E. now rewrite E in Hv.
Qed.

Lemma label_error_once cols col :
  label_error cols col = None <-> occurrences cols col = 1.
Proof.
  unfold label_error. destruct (occurrences cols col) as [|[|n]].
  - split; discriminate.
  - tauto.
  - split; discriminate.
Qed.

(** When every label names one column of the group, the loop over the
    input columns raises nothing and shows the lines of [input_display]. *)
Lemma input_lines_listed g input_cols :
  (forall c, In c input_cols -> occurrences (columns g) c = 1) ->
  input_lines g input_cols = (map input_line (input_display g input_cols), None).
Proof.
  induction input_cols as [|col rest IH]; intros H; [ reflexivity | ].
  cbn [input_lines].
  assert (label_error (columns g) col = None) as ->
      by (apply label_error_once, H; now left).
  rewrite IH by (intros; apply H; now right).
  unfold input_display. cbn [flat_map]. rewrite map_app.
  now destruct (cleaned_vals g col).
Qed.

(** The loop raises exactly when some label does not name one column. *)
Lemma input_lines_raise_iff g input_cols :
  snd (input_lines g input_cols) = None
  <-> forall c, In c input_cols -> occurrences (columns g) c = 1.
Proof.
  induction input_cols as [|col rest IH]; cbn [input_lines].
  - split; auto. intros _ c [].
  - destruct (label_error (columns g) col) as [exn|] eqn:E.
    + split; [ discriminate | ]. intros H.
      assert (label_error (columns g) col = None) as K
          by (apply label_error_once, H; now left).
      congruence.
    + apply label_error_once in E.
      destruct (input_lines g rest) as [lines raised]. cbn [snd] in *.
      rewrite IH. split.
      * intros H c [<- | Hc]; auto.
      * intros H c Hc. apply H. now right.
Qed.

(** What the loop shows are lines of the left column. *)
Lemma input_lines_left g input_cols :
  Forall (fun e => exists cv, e = input_line cv) (fst (input_lines g input_cols)).
Proof.
  induction input_cols as [|col rest IH]; cbn [input_lines]; [ constructor | ].
  destruct (label_error (columns g) col); [ constructor | ].
  destruct (input_lines g rest) as [lines raised]. cbn [fst] in *.
  apply Forall_app. split; auto.
  destruct (cleaned_vals g col); repeat constructor. eauto.
Qed.

(** X9.  When every input label names exactly one column of the group,
    the loop over the input columns raises nothing and shows one line per
    listed column, and a column is listed exactly when some member row
    has a value under it that is neither blank nor [NOT] once trimmed;
    otherwise the rule says nothing about the column. *)
Theorem input_column_listed_iff_some_value
    (g : DataFrame string) (input_cols : list string) :
  (forall c, In c input_cols -> occurrences (columns g) c = 1) ->
  input_lines g input_cols = (map input_line (input_display g input_cols), None)
  /\ forall col,
       In col (map fst (input_display g input_cols))
       <-> In col input_cols
           /\ exists v, In v (column_values g col)
                        /\ strip v <> "" /\ strip v <> "NOT".
Proof.
  intros H. split.
  - now apply input_lines_listed.
  - intros col. apply input_display_listed.
Qed.

Lemma input_column_listed_iff_some_value_witness :
  input_lines demo ["A"] = (map input_line (input_display demo ["A"]), None)
  /\ forall col,
       In col (map fst (input_display demo ["A"]))
       <-> In col ["A"]
           /\ exists v, In v (column_values demo col)
                        /\ strip v <> "" /\ strip v <> "NOT".
Proof.
  apply (@input_column_listed_iff_some_value demo ["A"]).
  intros c [<- | []]. reflexivity.
Defined.

Lemma filter_nil_iff {A} (f : A -> bool) l :
  filter f l = [] <-> forall x, In x l -> f x = false.
Proof.
  induction l as [|y l IH]; simpl.
  - split; auto. intros _ x [].
  - destruct (f y) eqn:E.
    + split; [ discriminate | ]. intros H.
      rewrite (H y) in E by (now left). discriminate.
    + rewrite IH. split.
      * intros H x [<- | Hx]; auto.
      * intros H x Hx. apply H. now right.
Qed.

(** X10.  A rule shows the line "No specific output attributes for this
    rule." exactly when its input side raised nothing (every input label
    names one column of the group) and every value in [common_outputs] is
    blank once trimmed; a rule with a value to show never carries that
    line. *)
Theorem no_specific_outputs_iff_all_blank
    (input_cols output_cols : list string) (n : nat) (g : Group) :
  In no_specific_outputs (fst (display_rule input_cols output_cols n g))
  <-> (forall col, In col input_cols -> occurrences (columns (group g)) col = 1)
      /\ (forall c v, In (c, v) (common_outputs output_cols (output_values g)) ->
                      strip v = "").
Proof.
  assert (output_display output_cols (output_values g) = []
          <-> forall c v, In (c, v) (common_outputs output_cols (output_values g)) ->
                          strip v = "") as B.
  { unfold output_display. rewrite filter_nil_iff. split.
    - intros H c v Hin. specialize (H (c, v) Hin). simpl in H.
      apply negb_false_iff in H. now apply String.eqb_eq.
    - intros H [c v] Hin. simpl. apply negb_false_iff, String.eqb_eq.
      now apply (H c). }
  rewrite <- B, <- input_lines_raise_iff.
  unfold display_rule, no_specific_outputs.
  pose proof (input_lines_left (group g) input_cols) as L.
  destruct (input_lines (group g) input_cols) as [lines raised].
  cbn [fst snd] in *. rewrite Forall_forall in L.
  assert (~ In (Column 1, Markdown "_No specific output attributes for this rule._")
               ([ (Page, Markdown "---");
                  (Page, Markdown ("#### Rule #" ++ str_of_nat n));
                  (Column 0, Info "**SB Input Conditions (Source)**" "📥") ]
                ++ lines)%list) as Top.
  { intros H. apply in_app_or in H. destruct H as [H | H].
    - simpl in H. intuition discriminate.
    - apply L in H. destruct H as [cv E]. discriminate. }
  destruct raised as [exn|]; cbn [fst].
  - split; [ intros H; elim (Top H) | intros [H _]; discriminate ].
  - split.
    + intros H. split; auto.
      apply in_app_or in H. destruct H as [H | H]; [ elim (Top H) | ].
      unfold output_lines in H. destruct H as [H | H]; [ discriminate | ].
      destruct (output_display output_cols (output_values g)) as [|o l]; auto.
      apply in_map_iff in H. destruct H as [cv [E _]].
      unfold output_line in E. injection E as E. simpl in E. discriminate.
    + intros [_ E]. apply in_or_app. right.
      unfold output_lines. rewrite E. right. now left.
Qed.

(* ================================================================== *)
(** * More on the two filters *)
(* ================================================================== *)

Lemma filter_filter {A} (f g : A -> bool) l :
  filter f (filter g l) = filter (fun x => g x && f x) l.
Proof.
  induction l as [|x l IH]; simpl; auto.
  destruct (g x); simpl; [ destruct (f x) | ]; now rewrite IH.
Qed.

Lemma frame_eq {A} (d1 d2 : DataFrame A) :
  columns d1 = columns d2 -> rows d1 = rows d2 -> d1 = d2.
Proof. destruct d1, d2. simpl. now intros -> ->. Qed.

Lemma has_all_header df df' output_cols selected r :
  columns df' = columns df ->
  has_all df' output_cols selected r = has_all df output_cols selected r.
Proof. intros C. unfold has_all. now rewrite C. Qed.

(** The secondary filter keeps the header unless it is given a frame
    without rows and a selection. *)
Lemma secondary_filter_columns df output_cols selected :
  rows df <> [] \/ selected = [] ->
  columns (secondary_filter df output_cols selected) = columns df.
Proof.
  unfold secondary_filter. destruct selected as [|a l]; auto.
  destruct (rows df); auto. intros [H | H]; congruence.
Qed.

(** X11.  Filtering by one selection and then by another leaves the rows
    that filtering by both at once leaves; the two frames are the same as
    long as the first selection leaves a row. *)
Theorem secondary_filter_twice
    (df : DataFrame string) (output_cols s1 s2 : list string) :
  rows (secondary_filter (secondary_filter df output_cols s1) output_cols s2)
  = rows (secondary_filter df output_cols (s1 ++ s2))
  /\ (rows (secondary_filter df output_cols s1) <> [] ->
      secondary_filter (secondary_filter df output_cols s1) output_cols s2
      = secondary_filter df output_cols (s1 ++ s2)).
Proof.
  assert (rows (secondary_filter df output_cols s1) <> [] ->
          columns (secondary_filter df output_cols s1) = columns df) as C.
  { intros H. apply secondary_filter_columns.
    destruct (rows df) eqn:E; [ | left; discriminate ].
    rewrite secondary_filter_rows, E in H. simpl in H. congruence. }
  assert (rows (secondary_filter (secondary_filter df output_cols s1) output_cols s2)
          = rows (secondary_filter df output_cols (s1 ++ s2))) as R.
  { rewrite !secondary_filter_rows.
    destruct (filter (has_all df output_cols s1) (rows df)) as [|r l] eqn:F.
    - simpl. symmetry. apply filter_nil_iff. intros r Hr.
      rewrite filter_nil_iff in F. specialize (F r Hr).
      unfold has_all in *. rewrite forallb_app, F. reflexivity.
    - rewrite <- F, filter_filter. apply filter_ext. intros r0.
      rewrite (@has_all_header df (secondary_filter df output_cols s1)).
      + unfold has_all. now rewrite forallb_app.
      + apply C. rewrite secondary_filter_rows, F. discriminate. }
  split; [ exact R | ].
  intros Hne. apply frame_eq; [ | exact R ].
  transitivity (columns df).
  - rewrite secondary_filter_columns by (left; exact Hne). apply C, Hne.
  - symmetry. apply secondary_filter_columns. left. intros E.
    apply Hne. now rewrite secondary_filter_rows, E.
Qed.

Lemma secondary_filter_twice_witness :
  secondary_filter (secondary_filter demo demo_outputs ["X"]) demo_outputs ["Y"]
  = secondary_filter demo demo_outputs (["X"] ++ ["Y"]).
Proof.
  apply (@secondary_filter_twice demo demo_outputs ["X"] ["Y"]).
  vm_compute. discriminate.
Defined.

(** X12.  The result of the secondary filter depends only on which
    attributes are selected, not on their order nor on repetitions. *)
Theorem secondary_filter_same_selection
    (df : DataFrame string) (output_cols s1 s2 : list string) :
  (forall a, In a s1 <-> In a s2) ->
  secondary_filter df output_cols s1 = secondary_filter df output_cols s2.
Proof.
  intros Same.
  assert (forall r, has_all df output_cols s1 r = has_all df output_cols s2 r) as M.
  { intros r. unfold has_all.
    destruct (forallb _ s1) eqn:E1; destruct (forallb _ s2) eqn:E2; auto.
    + rewrite forallb_forall in E1.
      assert (forallb (fun attr => mem attr (row_values (columns df) r output_cols)) s2
              = true) as K
          by (apply forallb_forall; intros a Ha; apply E1; now apply Same).
      congruence.
    + rewrite forallb_forall in E2.
      assert (forallb (fun attr => mem attr (row_values (columns df) r output_cols)) s1
              = true) as K
          by (apply forallb_forall; intros a Ha; apply E2; now apply Same).
      congruence. }
  unfold secondary_filter.
  destruct s1 as [|a1 l1], s2 as [|a2 l2].
  - reflexivity.
  - destruct (proj2 (Same a2)). now left.
  - destruct (proj1 (Same a1)). now left.
  - destruct (rows df); [ reflexivity | ].
    f_equal. apply filter_ext. exact M.
Qed.

Lemma secondary_filter_same_selection_witness :
  secondary_filter demo demo_outputs ["X"; "Y"]
  = secondary_filter demo demo_outputs ["Y"; "X"; "Y"].
Proof.
  apply (@secondary_filter_same_selection demo demo_outputs
           ["X"; "Y"] ["Y"; "X"; "Y"]).
  intros a. simpl. tauto.
Defined.

(** X13.  Every attribute offered for the secondary filter matches at
    least one row when selected alone. *)
Theorem offered_attribute_matches_a_row
    (filtered_df : DataFrame string) (output_cols : list string)
    (selected_event a : string) :
  In a (cleaned_attributes filtered_df output_cols selected_event) ->
  rows (secondary_filter filtered_df output_cols [a]) <> [].
Proof.
  unfold cleaned_attributes, unique_str.
  rewrite filter_In, unique_In, in_flat_map.
  intros [[r [Hr Ha]] _].
  assert (In r (rows (secondary_filter filtered_df output_cols [a]))) as Hin.
  { rewrite secondary_filter_rows. apply filter_In. split; auto.
    unfold has_all. simpl. rewrite andb_true_r. now apply mem_In. }
  intros E. now rewrite E in Hin.
Qed.

Lemma offered_attribute_matches_a_row_witness :
  rows (secondary_filter demo demo_outputs ["Z"]) <> [].
Proof.
  apply (@offered_attribute_matches_a_row demo demo_outputs "All" "Z").
  vm_compute. tauto.
Defined.

(** X14.  Every event that occurs in the pivot column matches at least
    one row when selected as the primary filter. *)
Theorem offered_event_matches_a_row
    (df : DataFrame string) (selected_event : string) :
  In selected_event (column_values df "WY event") ->
  rows (primary_filter df selected_event) <> [].
Proof.
  unfold column_values. rewrite in_flat_map. intros [r [Hr He]].
  unfold primary_filter. destruct (String.eqb selected_event "All").
  - intros E. now rewrite E in Hr.
  - simpl. intros E.
    assert (In r (filter (fun r0 => mem selected_event
                                      (select (columns df) (cells r0) "WY event"))
                         (rows df))) as Hin
        by (apply filter_In; split; [ exact Hr | now apply mem_In ]).
    now rewrite E in Hin.
Qed.

Lemma offered_event_matches_a_row_witness :
  rows (primary_filter demo "W") <> [].
Proof.
  apply (@offered_event_matches_a_row demo "W").
  vm_compute. tauto.
Defined.

(** X15.  The attributes offered for the secondary filter are, in
    strictly ascending order, exactly the output values of the
    primary-filtered rows that are not blank once trimmed and differ from
    the selected event. *)
Theorem candidates_are_the_other_output_values
    (filtered_df : DataFrame string) (output_cols : list string)
    (selected_event : string) :
  StronglySorted str_lt
    (sorted (cleaned_attributes filtered_df output_cols selected_event))
  /\ forall a,
       In a (sorted (cleaned_attributes filtered_df output_cols selected_event))
       <-> (exists r, In r (rows filtered_df)
                      /\ In a (row_values (columns filtered_df) r output_cols))
           /\ strip a <> "" /\ a <> selected_event.
Proof.
  split.
  - apply strictly_sorted. unfold cleaned_attributes, unique_str.
    apply NoDup_filter, unique_NoDup.
  - intros a. rewrite sorted_In. unfold cleaned_attributes, unique_str.
    rewrite filter_In, unique_In, in_flat_map, andb_true_iff,
      !negb_true_iff, !String.eqb_neq.
    tauto.
Qed.

Lemma primary_filter_unknown df selected_event :
  selected_event <> "All" ->
  ~ In selected_event (column_values df "WY event") ->
  rows (primary_filter df selected_event) = [].
Proof.
  intros Hne Hnot. unfold primary_filter.
  apply String.eqb_neq in Hne. rewrite Hne. simpl.
  apply filter_nil_iff. intros r Hr.
  destruct (mem selected_event (select (columns df) (cells r) "WY event")) eqn:M;
    auto.
  elim Hnot. unfold column_values. apply in_flat_map.
  exists r. split; auto. now apply mem_In.
Qed.

(** X16.  Selecting an event that does not occur in the pivot column is
    not an error: whatever the secondary selection, no row is left, and
    the page shows the warning that no rules were found, without an error
    message and without halting. *)
Theorem unknown_event_gives_no_matches
    (csv : csv_result) (df : DataFrame string)
    (input_cols output_cols : list string)
    (selected_event : string) (selected : list string) :
  load_data csv = ([], (df, input_cols, output_cols)) ->
  empty df = false ->
  occurrences (columns df) "WY event" = 1 ->
  selected_event <> "All" ->
  ~ In selected_event (column_values df "WY event") ->
  rows (secondary_filter (primary_filter df selected_event) output_cols selected)
  = []
  /\ no_matches (main true csv selected_event selected)
  /\ ~ halted (main true csv selected_event selected)
  /\ ~ reports_error (main true csv selected_event selected).
Proof.
  intros L Hne Hocc Hev Hnot.
  assert (rows (secondary_filter (primary_filter df selected_event)
                                 output_cols selected) = []) as Z.
  { rewrite secondary_filter_rows, (primary_filter_unknown df Hev Hnot).
    reflexivity. }
  split; auto.
  rewrite (main_without_rows csv selected_event selected L Hne Hocc Z).
  unfold no_matches, halted, reports_error. simpl. repeat split.
  - tauto.
  - intuition discriminate.
  - intros [message H]. intuition discriminate.
Qed.

Lemma unknown_event_gives_no_matches_witness :
  rows (secondary_filter
          (primary_filter (mkDF ["A"; "WY event"; "Out"]
                             [ mkRow 0 ["p"; "X"; "Y"]; mkRow 1 ["q"; "X"; "Z"] ])
                          "Q")
          ["WY event"; "Out"] ["Y"]) = []
  /\ no_matches (main true apart_raw "Q" ["Y"])
  /\ ~ halted (main true apart_raw "Q" ["Y"])
  /\ ~ reports_error (main true apart_raw "Q" ["Y"]).
Proof.
  apply (@unknown_event_gives_no_matches apart_raw
           (mkDF ["A"; "WY event"; "Out"]
                 [ mkRow 0 ["p"; "X"; "Y"]; mkRow 1 ["q"; "X"; "Z"] ])
           ["A"] ["WY event"; "Out"] "Q" ["Y"]).
  - reflexivity.
  - reflexivity.
  - reflexivity.
  - discriminate.
  - vm_compute. intuition discriminate.
Defined.

(* ================================================================== *)
(** * More on [main] *)
(* ================================================================== *)

(** X17.  Whenever [main] draws the event selector, its options are
    ['All'] followed by the values of the pivot column of the loaded
    table, each once, in strictly ascending order. *)
Theorem event_options_are_the_pivot_values
    (file_exists : bool) (csv : csv_result) (selected_event : string)
    (selected : list string) (where_ : place) (caption : string)
    (options : list string) :
  In (where_, Selectbox caption options)
     (main file_exists csv selected_event selected) ->
  exists values,
    options = "All" :: values
    /\ StronglySorted str_lt values
    /\ forall v, In v values
                 <-> In v (column_values (fst (fst (snd (load_data csv))))
                                         "WY event").
Proof.
  unfold main. intros H.
  apply in_app_or in H. destruct H as [H | H].
  { simpl in H. intuition discriminate. }
  destruct file_exists; simpl in H; [ | intuition discriminate ].
  pose proof (load_data_messages csv) as M.
  destruct (load_data csv) as [messages [[df input_cols] output_cols]].
  simpl in M. simpl fst. apply in_app_or in H. destruct H as [H | H].
  { rewrite Forall_forall in M. apply M in H. discriminate. }
  destruct (empty df); [ simpl in H; intuition discriminate | ].
  destruct (negb _); [ simpl in H; intuition discriminate | ].
  destruct H as [H | [H | [H | H]]]; try discriminate.
  - injection H as _ _ <-.
    exists (sorted (unique_str (column_values df "WY event"))).
    split; [ reflexivity | split ].
    + apply strictly_sorted, unique_NoDup.
    + intros v. rewrite sorted_In. apply unique_In.
  - pose proof (display_merged_rules_texts
                  (secondary_filter (primary_filter df selected_event)
                                    output_cols selected)
                  input_cols output_cols) as D.
    rewrite Forall_forall in D. apply D in H. discriminate.
Qed.

Lemma event_options_are_the_pivot_values_witness :
  exists values,
    ["All"; "W"; "X"] = "All" :: values
    /\ StronglySorted str_lt values
    /\ forall v, In v values
                 <-> In v (column_values
                             (fst (fst (snd (load_data
                                               (ReadOk (mkDF ["A"; "WY event"]
                                                          [ mkRow 0 [CStr "p"; CStr "X"];
                                                            mkRow 1 [CStr "q"; CStr "W"];
                                                            mkRow 2 [CStr "r"; CStr "X"] ]))))))
                             "WY event").
Proof.
  apply (@event_options_are_the_pivot_values true
           (ReadOk (mkDF ["A"; "WY event"]
                         [ mkRow 0 [CStr "p"; CStr "X"];
                           mkRow 1 [CStr "q"; CStr "W"];
                           mkRow 2 [CStr "r"; CStr "X"] ]))
           "All" [] Sidebar "1. Select a 'WY event':" ["All"; "W"; "X"]).
  vm_compute. tauto.
Defined.

(** X18.  A page that reports an error has halted, and a page that has
    halted shows neither a filter widget nor the page header nor a rule
    count: after a fatal failure nothing of a table is drawn. *)
Theorem halted_pages_draw_no_table
    (file_exists : bool) (csv : csv_result) (selected_event : string)
    (selected : list string) :
  (reports_error (main file_exists csv selected_event selected) ->
   halted (main file_exists csv selected_event selected))
  /\ (halted (main file_exists csv selected_event selected) ->
      Forall (fun e => past_loading e = false)
             (main file_exists csv selected_event selected)).
Proof.
  unfold reports_error, halted.
  destruct file_exists.
  - destruct (load_data_outcome csv) as [Hnone | [message L]].
    + unfold main. cbn [negb].
      destruct (load_data csv) as [messages [[df input_cols] output_cols]].
      simpl in Hnone. subst messages. cbn [app].
      destruct (empty df).
      { split; intros _; [ simpl; tauto | repeat constructor ]. }
      destruct (negb _).
      { split.
        - intros [message H]. simpl in H. intuition discriminate.
        - intros H. simpl in H. intuition discriminate. }
      pose proof (display_merged_rules_elements
                    (secondary_filter (primary_filter df selected_event)
                                      output_cols selected)
                    input_cols output_cols) as D.
      rewrite Forall_forall in D.
      split.
      * intros [message H].
        destruct H as [H | [H | [H | [H | [H | [H | H]]]]]]; try discriminate.
        apply D in H. discriminate.
      * intros H.
        destruct H as [H | [H | [H | [H | [H | [H | H]]]]]]; try discriminate.
        apply D in H. discriminate.
    + unfold main. rewrite L. cbn [negb].
      split; intros _; [ simpl; tauto | repeat constructor ].
  - unfold main. cbn [negb].
    split; intros _; [ simpl; tauto | repeat constructor ].
Qed.

Lemma halted_pages_draw_no_table_witness :
  Forall (fun e => past_loading e = false)
         (main true (ReadOk padded_pivot) "All" []).
Proof.
  destruct (@halted_pages_draw_no_table true (ReadOk padded_pivot) "All" [])
    as [Herr Hhalt].
  apply Hhalt, Herr.
  exists pivot_missing. vm_compute. tauto.
Defined.

(** X19.  The warning that no rules were found is shown exactly when the
    table handed to [display_merged_rules] is empty; for a table with a
    row it never appears among the rules. *)
Theorem no_rules_warning_iff_empty
    (df : DataFrame string) (input_cols output_cols : list string) :
  In (Page, Warning no_rules) (display_merged_rules df input_cols output_cols)
  <-> empty df = true.
Proof.
  unfold display_merged_rules. destruct (empty df).
  - split; auto. intros _. now left.
  - split; [ | discriminate ]. intros H. exfalso.
    destruct (groupby df output_cols) as [grouped|].
    + destruct H as [H | H]; [ discriminate | ].
      pose proof (display_rules_elements input_cols output_cols
                    (combine (seq 1 (List.length grouped)) grouped)) as T.
      rewrite Forall_forall in T. apply T in H.
      destruct H as [H | [exn H]]; discriminate.
    + simpl in H. intuition discriminate.
Qed.

Lemma prefix_append s t : prefix s (s ++ t) = true.
Proof.
  induction s as [|c s IH]; simpl.
  - now destruct t.
  - destruct (ascii_dec c c); [ exact IH | congruence ].
Qed.

Lemma filter_map_none {A B} (f : B -> bool) (g : A -> B) l :
  (forall x, f (g x) = false) -> filter f (map g l) = [].
Proof.
  intros H. induction l as [|x l IH]; simpl; auto. now rewrite H.
Qed.

Lemma input_lines_no_heading g input_cols :
  filter rule_heading (fst (input_lines g input_cols)) = [].
Proof.
  pose proof (input_lines_left g input_cols) as L.
  induction (fst (input_lines g input_cols)) as [|e l IH]; [ reflexivity | ].
  inversion L as [|? ? [cv ->] L']; subst. cbn [filter rule_heading input_line].
  now apply IH.
Qed.

Lemma output_lines_no_heading output_cols vals :
  filter rule_heading (output_lines output_cols vals) = [].
Proof.
  unfold output_lines. cbn [filter rule_heading].
  destruct (output_display output_cols vals); [ reflexivity | ].
  apply filter_map_none. reflexivity.
Qed.

Lemma display_rule_heading input_cols output_cols n g :
  filter rule_heading (fst (display_rule input_cols output_cols n g)) = [heading n].
Proof.
  unfold display_rule.
  pose proof (input_lines_no_heading (group g) input_cols) as L.
  destruct (input_lines (group g) input_cols) as [lines raised]. cbn [fst] in L.
  assert (prefix "#### Rule #" ("#### Rule #" ++ str_of_nat n) = true) as P
      by apply prefix_append.
  destruct raised; cbn [fst].
  - rewrite (filter_app rule_heading _ lines), L.
    cbn [filter rule_heading app].
    change (prefix "#### Rule #" "---") with false. now rewrite P.
  - rewrite (filter_app rule_heading _ (output_lines output_cols (output_values g))),
      (filter_app rule_heading _ lines), L, output_lines_no_heading.
    cbn [filter rule_heading app].
    change (prefix "#### Rule #" "---") with false. now rewrite P.
Qed.

Lemma display_rule_raises input_cols output_cols n g :
  snd (display_rule input_cols output_cols n g)
  = snd (input_lines (group g) input_cols).
Proof.
  unfold display_rule.
  destruct (input_lines (group g) input_cols) as [lines [exn|]]; reflexivity.
Qed.

Lemma display_rules_headings input_cols output_cols (grouped : list Group) :
  (forall g, In g grouped ->
             snd (input_lines (group g) input_cols) = None) ->
  forall start,
    filter rule_heading
      (display_rules input_cols output_cols
         (combine (seq start (List.length grouped)) grouped))
    = map heading (seq start (List.length grouped)).
Proof.
  induction grouped as [|g l IH]; intros Hok start; [ reflexivity | ].
  cbn [List.length seq combine display_rules map].
  pose proof (display_rule_heading input_cols output_cols start g) as Hh.
  pose proof (display_rule_raises input_cols output_cols start g) as Hr.
  rewrite (Hok g) in Hr by now left.
  destruct (display_rule input_cols output_cols start g) as [shown_here raised].
  cbn [fst snd] in *. subst raised.
  rewrite (filter_app rule_heading shown_here), Hh, IH; [ reflexivity | ].
  intros g' Hg'. apply Hok. now right.
Qed.

(** X20.  For a table with a row, the display opens with the count of
    rules, which is the number of groups.  When every input label names
    exactly one column of the table, the rules that follow are headed
    [Rule #1], [Rule #2], ... up to that count, in this order; when some
    input label does not, the display stops inside [Rule #1], its last
    element the uncaught exception. *)
Theorem rules_are_counted_and_numbered
    (df : DataFrame string) (input_cols output_cols : list string)
    (grouped : list Group) :
  groupby df output_cols = Some grouped ->
  empty df = false ->
  hd_error (display_merged_rules df input_cols output_cols)
  = Some (Page, Subheader ("Found " ++ str_of_nat (List.length grouped)
                             ++ " Unique Output Rule(s)"))
  /\ ((forall c, In c input_cols -> occurrences (columns df) c = 1) ->
      filter rule_heading (display_merged_rules df input_cols output_cols)
      = map heading (seq 1 (List.length grouped)))
  /\ (~ (forall c, In c input_cols -> occurrences (columns df) c = 1) ->
      filter rule_heading (display_merged_rules df input_cols output_cols)
      = [heading 1]
      /\ exists exn,
           last (display_merged_rules df input_cols output_cols) (Page, Stop)
           = (Page, Uncaught exn)).
Proof.
  intros G E.
  assert (forall g, In g grouped -> columns (group g) = columns df) as Hcols.
  { intros g Hg. apply (groupby_In _ _ g G) in Hg. destruct Hg as [_ ->].
    reflexivity. }
  unfold display_merged_rules. rewrite E, G.
  split; [ reflexivity | split ].
  - intros Hok. cbn [filter rule_heading]. apply display_rules_headings.
    intros g Hg. apply input_lines_raise_iff. now rewrite (Hcols g Hg).
  - intros Hbad.
    destruct grouped as [|g l].
    { exfalso. destruct (rows df) as [|r rs] eqn:Er.
      - unfold empty in E. rewrite Er in E. discriminate.
      - assert (In (row_key df output_cols r) (group_keys df output_cols)) as Hk
            by (apply group_keys_In; exists r; rewrite Er; split; [ now left | auto ]).
        rewrite <- (groupby_keys _ _ G) in Hk. contradiction. }
    cbn [List.length seq combine display_rules filter rule_heading].
    pose proof (display_rule_heading input_cols output_cols 1 g) as Hh.
    pose proof (display_rule_raises input_cols output_cols 1 g) as Hr.
    destruct (display_rule input_cols output_cols 1 g) as [shown_here raised].
    cbn [fst snd] in *.
    destruct raised as [exn|].
    + split.
      * rewrite (filter_app rule_heading shown_here), Hh. reflexivity.
      * exists exn. cbn [last].
        destruct (shown_here ++ [(Page, Uncaught exn)])%list eqn:Eq.
        { destruct shown_here; discriminate. }
        rewrite <- Eq. apply last_last.
    + exfalso. apply Hbad. symmetry in Hr.
      pose proof (proj1 (input_lines_raise_iff (group g) input_cols) Hr) as K.
      rewrite (Hcols g) in K by now left. exact K.
Qed.

Lemma rules_are_counted_and_numbered_witness :
  hd_error (display_merged_rules demo ["A"] demo_outputs)
  = Some (Page, Subheader "Found 3 Unique Output Rule(s)")
  /\ filter rule_heading (display_merged_rules demo ["A"] demo_outputs)
     = [heading 1; heading 2; heading 3]
  /\ filter rule_heading (display_merged_rules demo ["Nope"; "A"] demo_outputs)
     = [heading 1].
Proof.
  destruct (@rules_are_counted_and_numbered demo ["A"] demo_outputs demo_groups
              eq_refl eq_refl) as [Hhd [Hok _]].
  destruct (@rules_are_counted_and_numbered demo ["Nope"; "A"] demo_outputs
              demo_groups eq_refl eq_refl) as [_ [_ Hbad]].
  split; [ exact Hhd | split ].
  - apply Hok. intros c [<- | []]. reflexivity.
  - apply Hbad. intros H. specialize (H "Nope" (or_introl eq_refl)).
    discriminate.
Defined.

(** X21.  Rewriting [~] to [NOT] leaves a string as it is exactly when
    the string has no [~]; text around a [~] is never touched, so the
    rewriting of a concatenation is the concatenation of the rewritings. *)
Theorem replace_tilde_changes_tildes_only (s t : string) :
  (replace_tilde s = s <-> contains_tilde s = false)
  /\ replace_tilde (s ++ t) = replace_tilde s ++ replace_tilde t.
Proof.
  split; [ | apply replace_tilde_app ].
  split.
  - intros E. rewrite <- E. apply contains_tilde_replace.
  - unfold contains_tilde. induction s as [|c s IH]; [ reflexivity | ].
    cbn [list_ascii_of_string existsb replace_tilde].
    rewrite orb_false_iff, Ascii.eqb_sym. intros [E H].
    rewrite E, IH; auto.
Qed.

Lemma select_single {A} cols (vals : list A) c :
  occurrences cols c = 1 -> List.length vals = List.length cols ->
  exists v, select cols vals c = [v].
Proof.
  intros Hocc L. pose proof (select_length cols c vals L) as Hlen.
  rewrite Hocc in Hlen.
  destruct (select cols vals c) as [|v [|w l]]; try discriminate. eauto.
Qed.

(** X22.  Under a primary selection other than ['All'], every rule that
    is shown has the selected event as the first value of its output key,
    whatever the secondary selection. *)
Theorem rules_under_an_event_carry_it
    (df : DataFrame string) (others selected : list string)
    (selected_event : string) (grouped : list Group) :
  groupby (secondary_filter (primary_filter df selected_event)
                            ("WY event" :: others) selected)
          ("WY event" :: others) = Some grouped ->
  rectangular df = true ->
  selected_event <> "All" ->
  forall g, In g grouped -> hd_error (output_values g) = Some selected_event.
Proof.
  intros G R Hev g Hg.
  set (final := secondary_filter (primary_filter df selected_event)
                                 ("WY event" :: others) selected) in *.
  destruct (groupby_Some _ _ G) as [_ [Hocc _]].
  apply (groupby_In _ _ g G) in Hg. destruct Hg as [Hk _].
  apply group_keys_In in Hk. destruct Hk as [r [Hr <-]].
  assert (columns final = columns df) as C.
  { unfold final. rewrite secondary_filter_columns.
    - unfold primary_filter. now destruct (String.eqb selected_event "All").
    - left. intros E. unfold final in Hr.
      rewrite secondary_filter_rows, E in Hr. contradiction. }
  unfold final in Hr. rewrite secondary_filter_rows in Hr.
  apply filter_In in Hr. destruct Hr as [Hr _].
  unfold primary_filter in Hr. apply String.eqb_neq in Hev. rewrite Hev in Hr.
  simpl in Hr. apply filter_In in Hr. destruct Hr as [Hr M].
  apply mem_In in M.
  unfold row_key, row_values. rewrite C. cbn [flat_map].
  destruct (@select_single string (columns df) (cells r) "WY event") as [v Hv].
  - rewrite <- C. apply Hocc. now left.
  - now apply rectangular_row.
  - rewrite Hv in *. destruct M as [<- | []]. reflexivity.
Qed.

Lemma rules_under_an_event_carry_it_witness :
  hd_error ["X"; "Z"] = Some "X".
Proof.
  pose proof (@rules_under_an_event_carry_it demo ["Out"] ["Z"] "X"
                [mkGroup ["X"; "Z"] (mkDF ["A"; "WY event"; "Out"]
                                          [mkRow 2 ["r"; "X"; "Z"]])]
                eq_refl eq_refl) as H.
  apply (H ltac:(discriminate)
           (mkGroup ["X"; "Z"] (mkDF ["A"; "WY event"; "Out"]
                                     [mkRow 2 ["r"; "X"; "Z"]]))).
  now left.
Defined.
